(** * A shallow embedding of pycfg's control-flow-graph construction

    Source: src/pycfg/cfg.py.  The handler stack, its views, the
    exceptional-target helper, the per-opcode jump-target resolver
    [compute_jump_targets] and the single forward pass of [CFG.__init__]
    are translated function by function.  Python exceptions raised by the
    code become the [Err] case of a small result monad. *)

From Stdlib Require Import ZArith List String Bool Lia.
Import ListNotations.
Open Scope string_scope.
Open Scope Z_scope.
Open Scope list_scope.

(** ** Python exceptions the construction can raise *)

Inductive exn :=
| ValueError        (** negative index, or "Unhandled instruction" *)
| IndexError        (** [blockstack_view[i]] past the bottom *)
| EmptyBlockStack   (** [EmptyBlockStackException] raised by [pop] *)
| AttributeError    (** attribute of [None], e.g. [None.next_offset] *)
| TypeError         (** [set(None)], [list + None] *)
| AssertionError.   (** the [assert] of [join_blockstack_views] *)

Inductive res (A : Type) :=
| Ok : A -> res A
| Err : exn -> res A.
Arguments Ok {A} _.
Arguments Err {A} _.

Definition bind {A B} (m : res A) (k : A -> res B) : res B :=
  match m with Ok a => k a | Err e => Err e end.

Notation "x <- m ;; k" := (bind m (fun x => k))
  (at level 61, m at next level, right associativity).

(** ** Instructions ([dis.Instruction], the fields the code reads) *)

Record instr := mkInstr {
  opname : string;
  offset : Z;
  argval : Z;
  is_jump_target : bool
}.

(** ** Handler-scope records

    [Block(creator, next_offset, parent)] is a namedtuple whose [parent]
    is another [Block] or [None].  [blk] is "a Block or None": [NoBlock]
    is Python's [None].  Namedtuple equality is structural, as is Rocq
    equality on [blk]. *)

Inductive blk :=
| NoBlock
| Block (creator : string) (next_offset : Z) (parent : blk).

Definition blk_eq_dec (a b : blk) : {a = b} + {a <> b}.
Proof. decide equality; [apply Z.eq_dec | apply string_dec]. Defined.

Definition blk_eqb (a b : blk) : bool := if blk_eq_dec a b then true else false.

Definition blk_in (b : blk) (l : list blk) : bool := existsb (blk_eqb b) l.

(** The shared, append-only [BlockStack]: the list of every record ever
    pushed during one construction.  The code writes it and never reads it. *)
Definition blockstack := list blk.

(** A [BlockStackView(blockstack, last_block)] over the one shared
    [BlockStack] of the run: the pool is threaded through the state of
    the builder, and a view is its [last_block]. *)
Definition view := blk.

(** [BlockStackView.__iter__]: the records from the top down. *)
Fixpoint iter_view (v : view) : list blk :=
  match v with
  | NoBlock => []
  | Block _ _ p as b => b :: iter_view p
  end.

(** [BlockStackView.__getitem__]. *)
Definition getitem (v : view) (index : Z) : res blk :=
  if negb (index >=? 0) then Err ValueError
  else match nth_error (iter_view v) (Z.to_nat index) with
       | Some b => Ok b
       | None => Err IndexError
       end.

(** [BlockStackView.pop]. *)
Definition pop (v : view) : res view :=
  match v with
  | NoBlock => Err EmptyBlockStack
  | Block _ _ p => Ok p
  end.

(** [BlockStackView.pop_until] (the [NotOnStackException] is commented
    out in the source, so it never fails). *)
Fixpoint pop_until (v : view) (off : Z) : view :=
  match v with
  | Block _ n p => if n <=? off then pop_until p off else v
  | NoBlock => NoBlock
  end.

(** [BlockStackView.push]: appends the new record to the shared pool. *)
Definition push (pool : blockstack) (v : view) (creator : string) (next_offset : Z)
  : blockstack * view :=
  let new_block := Block creator next_offset v in
  (pool ++ [new_block], new_block).

(** [BlockStackView._first_X]. *)
Fixpoint first_X (v : view) (X : string) : blk :=
  match v with
  | NoBlock => NoBlock
  | Block c _ p => if String.eqb c X then v else first_X p X
  end.

Definition first_loop (v : view) : blk := first_X v "SETUP_LOOP".
Definition first_finally (v : view) : blk := first_X v "SETUP_FINALLY".

Definition creator_of (b : blk) : string :=
  match b with Block c _ _ => c | NoBlock => "" end.
Definition next_offset_of (b : blk) : Z :=
  match b with Block _ n _ => n | NoBlock => 0 end.

(** ** [exceptional_jump_targets]

    [None] is the value of the implicit fall-through of the Python
    function (a record whose creator is none of the four handled ones). *)

Definition exception_handling_ops : list string :=
  ["SETUP_EXCEPT"; "SETUP_FINALLY"; "SETUP_WITH"].

Definition str_in (s : string) (l : list string) : bool := existsb (String.eqb s) l.

Fixpoint exceptional_jump_targets (off : Z) (v : view) : option (list Z) :=
  match v with
  | NoBlock => Some []                      (* blockstack_view[0] raises IndexError *)
  | Block creator handler_offset parent =>  (* inner_block; pop() is parent *)
      if str_in creator exception_handling_ops then
        if off <? handler_offset then Some [handler_offset]
        else exceptional_jump_targets off parent
      else if String.eqb creator "SETUP_LOOP" then
        exceptional_jump_targets off parent
      else None
  end.

(** ** The opcode tables of [pycfg.ops] *)

(** The opcodes [compute_jump_targets] handles by name. *)
Definition special_opnames : list string :=
  ["JUMP_FORWARD"; "JUMP_ABSOLUTE";
   "POP_JUMP_IF_TRUE"; "POP_JUMP_IF_FALSE";
   "JUMP_IF_TRUE_OR_POP"; "JUMP_IF_FALSE_OR_POP"; "FOR_ITER";
   "WITH_CLEANUP_START"; "WITH_CLEANUP_FINISH"; "POP_EXCEPT";
   "BREAK_LOOP"; "POP_BLOCK"; "CONTINUE_LOOP"; "RETURN_VALUE";
   "SETUP_FINALLY"; "SETUP_EXCEPT"; "SETUP_LOOP"; "SETUP_WITH";
   "END_FINALLY"; "RAISE_VARARGS"].

(** Modelled from the spec: [ops.boring_opnames] (module [pycfg.ops] is not
    part of the sources).  The spec's "Sequential" class is "any
    instruction not otherwise special-cased". *)
Definition boring_opnames (op : string) : bool := negb (str_in op special_opnames).

(** Modelled from the spec: [ops.jumps] (module [pycfg.ops] is not part of
    the sources).  The spec's "jump/branch" instructions: unconditional
    jumps, conditional jumps, the loop-iteration step and loop-continue,
    whose argument is a jump target. *)
Definition jumps (op : string) : bool :=
  str_in op ["JUMP_FORWARD"; "JUMP_ABSOLUTE";
             "POP_JUMP_IF_TRUE"; "POP_JUMP_IF_FALSE";
             "JUMP_IF_TRUE_OR_POP"; "JUMP_IF_FALSE_OR_POP";
             "FOR_ITER"; "CONTINUE_LOOP"].

(** ** Path metadata

    The dict with keys ['has return'], ['has except'] and ['broken loops'];
    an absent key reads as [False] / [[]], the defaults the code uses. *)

Record meta := mkMeta {
  has_return : bool;
  has_except : bool;
  broken_loops : list blk
}.

Definition empty_meta : meta := mkMeta false false [].

Definition set_has_return (m : meta) : meta :=
  mkMeta true (has_except m) (broken_loops m).
Definition set_has_except (m : meta) : meta :=
  mkMeta (has_return m) true (broken_loops m).
Definition add_broken_loop (m : meta) (b : blk) : meta :=
  mkMeta (has_return m) (has_except m) (broken_loops m ++ [b]).

(** ** [compute_jump_targets]

    Returns [(targets, path_metadata, new_view)] and the shared pool;
    [targets] is [None] where the Python code assigns the [None] returned by
    [exceptional_jump_targets] without touching it. *)

Record jt_result := mkJT {
  targets : option (list Z);
  new_meta : meta;
  new_view : view;
  new_pool : blockstack
}.

Fixpoint return_scan (off : Z) (bs : list blk) : list Z :=
  match bs with
  | [] => []
  | Block c n _ :: rest =>
      if str_in c ["SETUP_FINALLY"; "SETUP_WITH"] then
        if off <? n then [n] else return_scan off rest
      else return_scan off rest
  | NoBlock :: rest => return_scan off rest
  end.

Definition finally_block_on_stack (v : view) : bool :=
  existsb (fun b => str_in (creator_of b) ["SETUP_FINALLY"; "SETUP_WITH"]) (iter_view v).

Definition compute_jump_targets (pool : blockstack) (i : instr) (md : meta) (v : view)
  : res jt_result :=
  let op := opname i in
  let off := offset i in
  let next_offset := off + 2 in
  if boring_opnames op then
    match exceptional_jump_targets off v with
    | Some t => Ok (mkJT (Some (t ++ [next_offset])) md v pool)
    | None => Err AttributeError                 (* None.append *)
    end
  else if str_in op ["JUMP_FORWARD"; "JUMP_ABSOLUTE"] then
    Ok (mkJT (Some [argval i]) md v pool)
  else if str_in op ["POP_JUMP_IF_TRUE"; "POP_JUMP_IF_FALSE";
                     "JUMP_IF_TRUE_OR_POP"; "JUMP_IF_FALSE_OR_POP"; "FOR_ITER"] then
    Ok (mkJT (Some [next_offset; argval i]) md v pool)
  else if str_in op ["WITH_CLEANUP_START"; "WITH_CLEANUP_FINISH"] then
    Ok (mkJT (Some [next_offset]) md v pool)
  else if String.eqb op "POP_EXCEPT" then
    Ok (mkJT (Some [next_offset]) md v pool)
  else if String.eqb op "BREAK_LOOP" then
    inner_block <- getitem v 0 ;;
    let md' := add_broken_loop md (first_loop v) in
    if String.eqb (creator_of inner_block) "SETUP_LOOP" then
      Ok (mkJT (Some [next_offset_of inner_block]) md' v pool)
    else
      Ok (mkJT (exceptional_jump_targets off v) md' v pool)
  else if String.eqb op "POP_BLOCK" then
    Ok (mkJT (Some [next_offset]) md v pool)
  else if String.eqb op "CONTINUE_LOOP" then
    inner_block <- getitem v 0 ;;
    if String.eqb (creator_of inner_block) "SETUP_LOOP" then
      Ok (mkJT (Some [argval i]) md v pool)
    else
      Ok (mkJT (exceptional_jump_targets off v) md v pool)
  else if String.eqb op "RETURN_VALUE" then
    let t := match return_scan off (iter_view v) with [] => [-1] | t => t end in
    Ok (mkJT (Some t) (set_has_return md) v pool)
  else if str_in op ["SETUP_FINALLY"; "SETUP_EXCEPT"; "SETUP_LOOP"; "SETUP_WITH"] then
    let '(pool', v') := push pool v op (argval i) in
    Ok (mkJT (Some [next_offset]) md v' pool')
  else if String.eqb op "END_FINALLY" then
    match exceptional_jump_targets off v with
    | None => Err TypeError                      (* [next_offset] + None *)
    | Some exc =>
        let t1 := [next_offset] ++ exc in
        let t2 := if has_return md && negb (finally_block_on_stack v)
                  then t1 ++ [-1] else t1 in
        let fl := first_loop v in
        if blk_in fl (broken_loops md) then
          match fl with
          | NoBlock => Err AttributeError        (* None.next_offset *)
          | Block _ n _ => Ok (mkJT (Some (t2 ++ [n])) md v pool)
          end
        else Ok (mkJT (Some t2) md v pool)
    end
  else if String.eqb op "RAISE_VARARGS" then
    match exceptional_jump_targets off v with
    | None => Err TypeError
    | Some exc => Ok (mkJT (Some ([next_offset] ++ exc)) (set_has_except md) v pool)
    end
  else Err ValueError.

(** ** Basic blocks and the state of [CFG.__init__] *)

(** [BasicBlock]: its [offset] is its instruction's; [blockstack_view] is
    [None] until the instruction has been processed. *)
Record node := mkNode {
  bb_instruction : instr;
  bb_view : option view;
  bb_successors : list Z;
  bb_meta : meta
}.

Definition bb_offset (n : node) : Z := offset (bb_instruction n).

(** [dis.Instruction('FUNCTION_EXIT', 0, 0, '', '', -1, 0, False)]. *)
Definition function_exit : instr := mkInstr "FUNCTION_EXIT" (-1) 0 false.

(** [self.basic_blocks], a dict keyed by offset, as an association list in
    insertion order; [dict_set] is [basic_blocks[bb.offset] = bb]. *)
Fixpoint dict_set (l : list node) (n : node) : list node :=
  match l with
  | [] => [n]
  | m :: rest => if bb_offset m =? bb_offset n then n :: rest else m :: dict_set rest n
  end.

Record state := mkState {
  basic_blocks : list node;
  pool : blockstack;                  (* self._blockstack *)
  reachable_instructions : list Z;
  unreachable_jump_targets : list Z
}.

Definition z_in (z : Z) (l : list Z) : bool := existsb (Z.eqb z) l.

Definition is_reachable (st : state) (i : instr) : bool :=
  if z_in (offset i) (reachable_instructions st) then true
  else if is_jump_target i then negb (z_in (offset i) (unreachable_jump_targets st))
  else false.                         (* the implicit [None] *)

Definition predecessors_of (nodes : list node) (off : Z) : list node :=
  filter (fun bb => z_in off (bb_successors bb)) nodes.

(** The loop of [join_blockstack_views] filling the set [blocks], kept
    as the list of its distinct elements. *)
Fixpoint collect_blocks (st : state) (off : Z) (preds : list node) (blocks : list blk)
  : res (list blk) :=
  match preds with
  | [] => Ok blocks
  | bb :: rest =>
      if negb (is_reachable st (bb_instruction bb)) then collect_blocks st off rest blocks
      else match bb_view bb with
           | None => Err AttributeError          (* None.pop_until *)
           | Some v =>
               let b := pop_until v off in
               collect_blocks st off rest (if blk_in b blocks then blocks else blocks ++ [b])
           end
  end.

(** [join_blockstack_views]; [pick] is [set.pop], which returns an element
    of the set in an order fixed by the hashes of its elements. *)
Definition join_blockstack_views (pick : list blk -> blk) (st : state)
  (nodes : list node) (off : Z) : res view :=
  blocks <- collect_blocks st off (predecessors_of nodes off) [] ;;
  if Nat.leb (List.length blocks) 1 then
    Ok (match blocks with [] => NoBlock | _ => pick blocks end)
  else Err AssertionError.

Definition join_meta_step (md : meta) (bb : node) : meta :=
  mkMeta (has_return md || has_return (bb_meta bb))
         (has_except md || has_except (bb_meta bb))
         (broken_loops md ++ broken_loops (bb_meta bb)).

Definition join_path_metadata (nodes : list node) (off : Z) : meta :=
  fold_left join_meta_step (predecessors_of nodes off) empty_meta.

(** The [for instr in bytecode] loop of [CFG.__init__]. *)
Fixpoint build (pick : list blk -> blk) (st : state) (code : list instr) : res state :=
  match code with
  | [] => Ok st
  | i :: rest =>
      if negb (is_reachable st i) then
        let st' := if jumps (opname i)
                   then mkState (basic_blocks st) (pool st) (reachable_instructions st)
                                (unreachable_jump_targets st ++ [argval i])
                   else st in
        build pick st' rest
      else
        let nodes1 := dict_set (basic_blocks st) (mkNode i None [] empty_meta) in
        let md := join_path_metadata nodes1 (offset i) in
        v <- join_blockstack_views pick st nodes1 (offset i) ;;
        r <- compute_jump_targets (pool st) i md v ;;
        match targets r with
        | None => Err TypeError                  (* set(None) *)
        | Some successors =>
            build pick
              (mkState (dict_set nodes1 (mkNode i (Some (new_view r)) successors (new_meta r)))
                       (new_pool r)
                       (reachable_instructions st ++ successors)
                       (unreachable_jump_targets st))
              rest
        end
  end.

Definition init_state : state :=
  mkState [mkNode function_exit None [] empty_meta] [] [0] [].

(** [CFG(code)]. *)
Definition CFG (pick : list blk -> blk) (code : list instr) : res state :=
  build pick init_state code.

(** The graph a consumer sees: each node's offset and successor list. *)
Definition graph_of (st : state) : list (Z * list Z) :=
  map (fun n => (bb_offset n, bb_successors n)) (basic_blocks st).

Definition cfg_graph (pick : list blk -> blk) (code : list instr) : res (list (Z * list Z)) :=
  st <- CFG pick code ;; Ok (graph_of st).

(** [set.pop] as CPython would return it for some hash order: any element. *)
Definition set_pop_first (l : list blk) : blk := hd NoBlock l.

(** ** Concrete programs *)

(** [try: return 1 / finally: return 2] in CPython 3.6 bytecode. *)
Definition prog_try_finally : list instr :=
  [mkInstr "SETUP_FINALLY" 0 8 false;
   mkInstr "LOAD_CONST" 2 0 false;
   mkInstr "RETURN_VALUE" 4 0 false;
   mkInstr "POP_BLOCK" 6 0 false;
   mkInstr "LOAD_CONST" 8 0 true;
   mkInstr "RETURN_VALUE" 10 0 false;
   mkInstr "END_FINALLY" 12 0 false;
   mkInstr "LOAD_CONST" 14 0 false;
   mkInstr "RETURN_VALUE" 16 0 false].

(** Every record of the view was pushed by one of the four scope-entry
    opcodes, the only creators [compute_jump_targets] passes to [push]. *)
Definition scope_entry_ops : list string :=
  ["SETUP_LOOP"; "SETUP_EXCEPT"; "SETUP_FINALLY"; "SETUP_WITH"].

Fixpoint creators_closed (v : view) : bool :=
  match v with
  | NoBlock => true
  | Block c _ p => str_in c scope_entry_ops && creators_closed p
  end.

(** The claim's reading of the return case: a finally/with record whose
    handler entry lies after the instruction intercepts the return. *)
Definition intercepts_return (off : Z) (b : blk) : bool :=
  match b with
  | Block c n _ => str_in c ["SETUP_FINALLY"; "SETUP_WITH"] && (off <? n)
  | NoBlock => false
  end.

(** ** [CFG.__getitem__] / [__contains__] and [tests/utils.try_path] *)

(** [self.basic_blocks[key]]: the dict's keys are unique ([dict_set]
    replaces), so the first node with that offset is the entry. *)
Definition cfg_lookup (nodes : list node) (key : Z) : option node :=
  find (fun n => bb_offset n =? key) nodes.

(** The exceptions [try_path] lets out: its own two, and the [KeyError]
    of [cfg[successor]], which it does not catch. *)
Inductive path_exn :=
| MissingBasicBlockException (instruction : Z)
| KeyError (key : Z)
| MissingSuccessorException (instruction successor : Z).

(** The loop over [zip(path, path[1:])]. *)
Fixpoint try_path_pairs (nodes : list node) (pairs : list (Z * Z)) : path_exn + bool :=
  match pairs with
  | [] => inr true
  | (instruction, successor) :: rest =>
      match cfg_lookup nodes instruction with
      | None => inl (MissingBasicBlockException instruction)
      | Some bb =>
          if z_in successor (bb_successors bb) then try_path_pairs nodes rest
          else match cfg_lookup nodes successor with
               | None => inl (KeyError successor)
               | Some _ =>
                   if instruction =? successor then try_path_pairs nodes rest
                   else inl (MissingSuccessorException instruction successor)
               end
      end
  end.

Definition try_path (path : list Z) (nodes : list node) : path_exn + bool :=
  try_path_pairs nodes (combine path (tl path)).

(** An except/finally/with record that catches an exception raised at [off]. *)
Definition handler_catches (off : Z) (b : blk) : bool :=
  match b with
  | Block c n _ => str_in c exception_handling_ops && (off <? n)
  | NoBlock => false
  end.

(** * Properties *)

Lemma str_in_In (s : string) (l : list string) : str_in s l = true <-> In s l.
Proof.
  unfold str_in; rewrite existsb_exists; split.
  - intros (x & Hx & E); apply String.eqb_eq in E; subst; exact Hx.
  - intros H; exists s; split; [exact H | apply String.eqb_refl].
Qed.

(** C1: [exceptional_jump_targets] on an empty view gives [[]]; on a loop
    record it recurses on the parent; on an except/finally/with record it
    gives that record's exit offset when the offset is strictly below it,
    and otherwise recurses on the parent. *)
Theorem exceptional_jump_targets_cases (off n : Z) (parent : view) (c : string)
  (Hc : In c exception_handling_ops) :
  exceptional_jump_targets off NoBlock = Some [] /\
  exceptional_jump_targets off (Block "SETUP_LOOP" n parent)
    = exceptional_jump_targets off parent /\
  exceptional_jump_targets off (Block c n parent)
    = (if off <? n then Some [n] else exceptional_jump_targets off parent).
Proof.
  split; [reflexivity | split; [reflexivity |]].
  apply str_in_In in Hc; cbn [exceptional_jump_targets]; rewrite Hc; reflexivity.
Qed.

Lemma exceptional_jump_targets_cases_witness :
  In "SETUP_FINALLY" exception_handling_ops /\
  exceptional_jump_targets 10 NoBlock = Some [] /\
  exceptional_jump_targets 10 (Block "SETUP_LOOP" 8 NoBlock)
    = exceptional_jump_targets 10 NoBlock /\
  exceptional_jump_targets 10 (Block "SETUP_FINALLY" 8 NoBlock)
    = (if 10 <? 8 then Some [8] else exceptional_jump_targets 10 NoBlock).
Proof.
  split; [simpl; tauto |].
  apply (exceptional_jump_targets_cases 10 8 NoBlock "SETUP_FINALLY").
  simpl; tauto.
Defined.

Lemma return_scan_spec (off : Z) (bs : list blk) :
  (return_scan off bs = [] /\ forallb (fun b => negb (intercepts_return off b)) bs = true) \/
  (exists pre b post, bs = pre ++ b :: post /\
     forallb (fun x => negb (intercepts_return off x)) pre = true /\
     intercepts_return off b = true /\ return_scan off bs = [next_offset_of b]).
Proof.
  induction bs as [| b bs IH]; [left; split; reflexivity |].
  destruct b as [| c n p].
  - destruct IH as [[E F] | (pre & b & post & -> & F & I & E)].
    + left; split; [exact E | exact F].
    + right; exists (NoBlock :: pre), b, post; repeat split; assumption.
  - cbn [return_scan].
    destruct (str_in c ["SETUP_FINALLY"; "SETUP_WITH"]) eqn:Hc;
      destruct (off <? n) eqn:Hn.
    + right; exists [], (Block c n p), bs; cbn [intercepts_return forallb app];
        rewrite Hc, Hn; repeat split.
    + destruct IH as [[E F] | (pre & b & post & -> & F & I & E)].
      * left; split; [exact E |]; cbn [intercepts_return forallb]; rewrite Hc, Hn; exact F.
      * right; exists (Block c n p :: pre), b, post; cbn [intercepts_return forallb app];
          rewrite Hc, Hn; repeat split; assumption.
    + destruct IH as [[E F] | (pre & b & post & -> & F & I & E)].
      * left; split; [exact E |]; cbn [intercepts_return forallb]; rewrite Hc; exact F.
      * right; exists (Block c n p :: pre), b, post; cbn [intercepts_return forallb app];
          rewrite Hc; repeat split; assumption.
    + destruct IH as [[E F] | (pre & b & post & -> & F & I & E)].
      * left; split; [exact E |]; cbn [intercepts_return forallb]; rewrite Hc; exact F.
      * right; exists (Block c n p :: pre), b, post; cbn [intercepts_return forallb app];
          rewrite Hc; repeat split; assumption.
Qed.

(** C2: a return instruction has exactly one successor: the exit offset of
    the first finally/with record, scanning the view from the top, whose
    exit offset is strictly greater than the instruction's offset, or [-1]
    when there is none; the metadata gets "has return" and the view is
    propagated unchanged. *)
Theorem return_value_targets (pool : blockstack) (i : instr) (md : meta) (v : view)
  (Hop : opname i = "RETURN_VALUE") :
  exists t,
    compute_jump_targets pool i md v = Ok (mkJT (Some [t]) (set_has_return md) v pool) /\
    ((exists pre b post, iter_view v = pre ++ b :: post /\
        forallb (fun x => negb (intercepts_return (offset i) x)) pre = true /\
        intercepts_return (offset i) b = true /\ t = next_offset_of b) \/
     (forallb (fun x => negb (intercepts_return (offset i) x)) (iter_view v) = true /\
      t = -1)).
Proof.
  unfold compute_jump_targets; rewrite Hop; cbn -[return_scan iter_view].
  destruct (return_scan_spec (offset i) (iter_view v))
    as [[E F] | (pre & b & post & Hv & F & I & E)]; rewrite E.
  - exists (-1); split; [reflexivity | right; split; [exact F | reflexivity]].
  - exists (next_offset_of b); split; [reflexivity |].
    left; exists pre, b, post; repeat split; assumption.
Qed.

Lemma return_value_targets_witness :
  opname (mkInstr "RETURN_VALUE" 4 0 false) = "RETURN_VALUE" /\
  exists t,
    compute_jump_targets [] (mkInstr "RETURN_VALUE" 4 0 false) empty_meta
      (Block "SETUP_FINALLY" 8 NoBlock)
    = Ok (mkJT (Some [t]) (set_has_return empty_meta) (Block "SETUP_FINALLY" 8 NoBlock) []) /\
    ((exists pre b post, iter_view (Block "SETUP_FINALLY" 8 NoBlock) = pre ++ b :: post /\
        forallb (fun x => negb (intercepts_return 4 x)) pre = true /\
        intercepts_return 4 b = true /\ t = next_offset_of b) \/
     (forallb (fun x => negb (intercepts_return 4 x))
        (iter_view (Block "SETUP_FINALLY" 8 NoBlock)) = true /\ t = -1)).
Proof.
  split; [reflexivity |].
  apply (return_value_targets [] (mkInstr "RETURN_VALUE" 4 0 false) empty_meta
           (Block "SETUP_FINALLY" 8 NoBlock)).
  reflexivity.
Defined.

Lemma exceptional_jump_targets_closed (off : Z) (v : view) :
  creators_closed v = true -> exists l, exceptional_jump_targets off v = Some l.
Proof.
  induction v as [| c n p IH]; intros Hv; [exists []; reflexivity |].
  cbn [creators_closed] in Hv; apply andb_true_iff in Hv as [Hc Hp].
  apply str_in_In in Hc; cbn [exceptional_jump_targets].
  destruct (str_in c exception_handling_ops) eqn:He.
  - destruct (off <? n); [eexists; reflexivity | exact (IH Hp)].
  - destruct (String.eqb c "SETUP_LOOP") eqn:Hl; [exact (IH Hp) |].
    exfalso; apply String.eqb_neq in Hl.
    assert (Hn : ~ In c exception_handling_ops) by (rewrite <- str_in_In, He; discriminate).
    simpl in Hc, Hn; intuition congruence.
Qed.

(** Case analysis on every [if] and [match] of a hypothesis [H]. *)
Ltac split_ifs H :=
  repeat match type of H with
  | context [if ?b then _ else _] => let E := fresh "E" in destruct b eqn:E
  | context [match ?x with Some _ => _ | None => _ end] => destruct x
  | context [match ?x with NoBlock => _ | Block _ _ _ => _ end] => destruct x
  | context [match ?x with Ok _ => _ | Err _ => _ end] => destruct x
  | context [match ?x with (_, _) => _ end] => destruct x
  end.

Lemma compute_jump_targets_closed (pool : blockstack) (i : instr) (md : meta) (v : view)
  (r : jt_result) :
  creators_closed v = true -> compute_jump_targets pool i md v = Ok r ->
  creators_closed (new_view r) = true.
Proof.
  intros Hv H; unfold compute_jump_targets, bind, push in H; cbv zeta in H.
  split_ifs H; try discriminate H; injection H as <-; try exact Hv.
  cbn [new_view creators_closed]; rewrite Hv, andb_true_r.
  match goal with E : str_in (opname i) _ = true |- _ => apply str_in_In in E end.
  apply str_in_In; simpl in *; tauto.
Qed.

(** C10: on a view whose records all come from the four scope-entry
    opcodes, [exceptional_jump_targets] returns a list, never the [None] of
    its fall-through; and [compute_jump_targets] only ever propagates views
    of that kind, since it pushes nothing else. *)
Theorem exceptional_jump_targets_total (off : Z) (v : view)
  (Hv : creators_closed v = true) :
  (exists l, exceptional_jump_targets off v = Some l) /\
  (forall pool i md r, compute_jump_targets pool i md v = Ok r ->
     creators_closed (new_view r) = true).
Proof.
  split; [exact (exceptional_jump_targets_closed off v Hv) |].
  intros pool i md r; exact (compute_jump_targets_closed pool i md v r Hv).
Qed.

Lemma exceptional_jump_targets_total_witness :
  creators_closed (Block "SETUP_WITH" 20 (Block "SETUP_LOOP" 40 NoBlock)) = true /\
  (exists l, exceptional_jump_targets 24
               (Block "SETUP_WITH" 20 (Block "SETUP_LOOP" 40 NoBlock)) = Some l).
Proof.
  assert (H : creators_closed (Block "SETUP_WITH" 20 (Block "SETUP_LOOP" 40 NoBlock)) = true)
    by reflexivity.
  split; [exact H | apply (exceptional_jump_targets_total 24 _ H)].
Defined.

(** [set.pop] returns an element of the (non-empty) set. *)
Definition pick_ok (pick : list blk -> blk) : Prop :=
  forall l, l <> [] -> In (pick l) l.

Lemma set_pop_first_ok : pick_ok set_pop_first.
Proof. intros [| x l] H; [congruence | left; reflexivity]. Qed.

(** The top of [pop_until v off], if any, ends strictly after [off]. *)
Definition above (off : Z) (b : blk) : Prop :=
  match b with NoBlock => True | Block _ n _ => off < n end.

Lemma pop_until_above (v : view) (off : Z) : above off (pop_until v off).
Proof.
  induction v as [| c n p IH]; [exact I |]; cbn [pop_until].
  destruct (n <=? off) eqn:E; [exact IH |]; cbn [above]; lia.
Qed.

Lemma collect_blocks_above (st : state) (off : Z) (preds : list node) (acc res : list blk) :
  Forall (above off) acc -> collect_blocks st off preds acc = Ok res ->
  Forall (above off) res.
Proof.
  revert acc; induction preds as [| bb rest IH]; intros acc Hacc H; cbn [collect_blocks] in H.
  - injection H as <-; exact Hacc.
  - destruct (negb (is_reachable st (bb_instruction bb))); [exact (IH acc Hacc H) |].
    destruct (bb_view bb) as [v |]; [| discriminate H].
    refine (IH _ _ H); destruct (blk_in (pop_until v off) acc); [exact Hacc |].
    apply Forall_app; split; [exact Hacc | constructor; [apply pop_until_above | constructor]].
Qed.

Lemma join_blockstack_views_above (pick : list blk -> blk) (Hpick : pick_ok pick)
  (st : state) (nodes : list node) (off : Z) (v : view) :
  join_blockstack_views pick st nodes off = Ok v -> above off v.
Proof.
  unfold join_blockstack_views, bind.
  destruct (collect_blocks st off (predecessors_of nodes off) []) as [blocks |] eqn:Hc;
    [| discriminate].
  pose proof (collect_blocks_above st off _ [] blocks (Forall_nil _) Hc) as Hf.
  destruct (Nat.leb (List.length blocks) 1); [| discriminate].
  intros H; injection H as <-; destruct blocks as [| b l]; [exact I |].
  rewrite Forall_forall in Hf; apply Hf, Hpick; discriminate.
Qed.

(** C3 (counterexample): an END_FINALLY whose view still has the finally
    record on top, with "has return" set: popping that record leaves no
    finally/with record, yet the resolver adds no edge to [-1], because it
    checks the view it was given, not a popped one. *)
Lemma end_finally_return_edge_counterexample :
  exists ts,
    compute_jump_targets [] (mkInstr "END_FINALLY" 20 0 false) (mkMeta true false [])
      (Block "SETUP_FINALLY" 10 NoBlock)
    = Ok (mkJT (Some ts) (mkMeta true false []) (Block "SETUP_FINALLY" 10 NoBlock) []) /\
    has_return (mkMeta true false []) = true /\
    pop (Block "SETUP_FINALLY" 10 NoBlock) = Ok NoBlock /\
    finally_block_on_stack NoBlock = false /\
    ~ In (-1) ts.
Proof.
  exists [22]; split; [reflexivity |].
  split; [reflexivity | split; [reflexivity | split; [reflexivity |]]].
  simpl; lia.
Qed.

(** C3 (amended): the successors of END_FINALLY are the next offset, the
    exceptional targets of the view [v] it is given, then [-1] when "has
    return" is set and no finally/with record is anywhere in [v] itself,
    then the exit offset of the nearest loop record of [v] when that record
    is in the broken-loop list.  The resolver pops nothing. *)
Theorem end_finally_targets (pool : blockstack) (i : instr) (md : meta) (v : view)
  (exc : list Z)
  (Hop : opname i = "END_FINALLY")
  (Hexc : exceptional_jump_targets (offset i) v = Some exc)
  (Hloop : first_loop v <> NoBlock \/ blk_in NoBlock (broken_loops md) = false) :
  compute_jump_targets pool i md v =
  Ok (mkJT (Some ([offset i + 2] ++ exc ++
                  (if has_return md && negb (finally_block_on_stack v) then [-1] else []) ++
                  (if blk_in (first_loop v) (broken_loops md)
                   then [next_offset_of (first_loop v)] else [])))
           md v pool).
Proof.
  unfold compute_jump_targets; rewrite Hop; cbv zeta.
  cbn -[exceptional_jump_targets finally_block_on_stack first_loop blk_in app].
  rewrite Hexc.
  destruct (blk_in (first_loop v) (broken_loops md)) eqn:Hb.
  - destruct (first_loop v) as [| c n p] eqn:Hf.
    + destruct Hloop as [Hl | Hl]; congruence.
    + destruct (has_return md && _); cbn [next_offset_of]; rewrite <- ?app_assoc;
        reflexivity.
  - destruct (has_return md && _); rewrite ?app_nil_r; reflexivity.
Qed.

Lemma end_finally_targets_witness :
  opname (mkInstr "END_FINALLY" 20 0 false) = "END_FINALLY" /\
  exceptional_jump_targets 20 (Block "SETUP_LOOP" 40 NoBlock) = Some [] /\
  (first_loop (Block "SETUP_LOOP" 40 NoBlock) <> NoBlock \/
   blk_in NoBlock (broken_loops (mkMeta true false [Block "SETUP_LOOP" 40 NoBlock])) = false) /\
  compute_jump_targets [] (mkInstr "END_FINALLY" 20 0 false)
    (mkMeta true false [Block "SETUP_LOOP" 40 NoBlock]) (Block "SETUP_LOOP" 40 NoBlock) =
  Ok (mkJT (Some ([20 + 2] ++ [] ++
                  (if has_return (mkMeta true false [Block "SETUP_LOOP" 40 NoBlock]) &&
                      negb (finally_block_on_stack (Block "SETUP_LOOP" 40 NoBlock))
                   then [-1] else []) ++
                  (if blk_in (first_loop (Block "SETUP_LOOP" 40 NoBlock))
                        (broken_loops (mkMeta true false [Block "SETUP_LOOP" 40 NoBlock]))
                   then [next_offset_of (first_loop (Block "SETUP_LOOP" 40 NoBlock))]
                   else [])))
           (mkMeta true false [Block "SETUP_LOOP" 40 NoBlock]) (Block "SETUP_LOOP" 40 NoBlock) []).
Proof.
  assert (Hl : first_loop (Block "SETUP_LOOP" 40 NoBlock) <> NoBlock) by discriminate.
  split; [reflexivity | split; [reflexivity | split; [left; exact Hl |]]].
  apply (end_finally_targets [] (mkInstr "END_FINALLY" 20 0 false)
           (mkMeta true false [Block "SETUP_LOOP" 40 NoBlock])
           (Block "SETUP_LOOP" 40 NoBlock) []); [reflexivity | reflexivity | left; exact Hl].
Defined.

(** C4 (counterexample): END_FINALLY with the finally record on top of its
    view propagates that same view; the view with the record popped would
    be empty. *)
Lemma end_finally_view_counterexample :
  exists r,
    compute_jump_targets [] (mkInstr "END_FINALLY" 20 0 false) empty_meta
      (Block "SETUP_FINALLY" 10 NoBlock) = Ok r /\
    pop (Block "SETUP_FINALLY" 10 NoBlock) = Ok NoBlock /\
    new_view r = Block "SETUP_FINALLY" 10 NoBlock /\
    new_view r <> NoBlock.
Proof.
  eexists; split; [reflexivity |].
  split; [reflexivity | split; [reflexivity | discriminate]].
Qed.

(** C4 (amended): END_FINALLY propagates the view [v] it receives
    unchanged.  The handler's own record is dropped before, by the
    predecessor join: a view the join returns at this offset is empty or
    has a top record whose exit offset is strictly greater than the
    offset, so no handler already entered (exit offset at or below the
    offset) is on top of it. *)
Theorem end_finally_view_unchanged (pick : list blk -> blk) (Hpick : pick_ok pick)
  (st : state) (nodes : list node) (pool : blockstack) (i : instr) (md : meta)
  (v : view) (r : jt_result)
  (Hop : opname i = "END_FINALLY")
  (Hj : join_blockstack_views pick st nodes (offset i) = Ok v)
  (H : compute_jump_targets pool i md v = Ok r) :
  new_view r = v /\ above (offset i) v.
Proof.
  split; [| exact (join_blockstack_views_above pick Hpick st nodes (offset i) v Hj)].
  unfold compute_jump_targets in H; rewrite Hop in H; cbv zeta in H.
  cbn -[exceptional_jump_targets finally_block_on_stack first_loop blk_in app] in H.
  split_ifs H; try discriminate H; injection H as <-; reflexivity.
Qed.

(** A finally handler entered at 8, inside a loop ending at 30: the
    reachable node at offset 10 still has the finally record on top of its
    view, and the join at offset 12 drops it, leaving the loop record. *)
Definition end_finally_state : state :=
  mkState [mkNode (mkInstr "LOAD_CONST" 10 0 false)
             (Some (Block "SETUP_FINALLY" 8 (Block "SETUP_LOOP" 30 NoBlock))) [12] empty_meta]
          [] [0; 10; 12] [].

Lemma end_finally_view_unchanged_witness :
  exists r,
    is_reachable end_finally_state (mkInstr "LOAD_CONST" 10 0 false) = true /\
    join_blockstack_views set_pop_first end_finally_state
      (basic_blocks end_finally_state) 12 = Ok (Block "SETUP_LOOP" 30 NoBlock) /\
    compute_jump_targets [] (mkInstr "END_FINALLY" 12 0 false) empty_meta
      (Block "SETUP_LOOP" 30 NoBlock) = Ok r /\
    new_view r = Block "SETUP_LOOP" 30 NoBlock /\ above 12 (Block "SETUP_LOOP" 30 NoBlock).
Proof.
  eexists; split; [reflexivity | split; [reflexivity | split; [reflexivity |]]].
  apply (end_finally_view_unchanged set_pop_first set_pop_first_ok end_finally_state
           (basic_blocks end_finally_state) [] (mkInstr "END_FINALLY" 12 0 false)
           empty_meta (Block "SETUP_LOOP" 30 NoBlock)); reflexivity.
Defined.

(** C5 (counterexample): BREAK_LOOP directly inside a loop jumps to the
    loop's exit offset but propagates the view with the loop record still
    on top. *)
Lemma break_loop_view_counterexample :
  exists r,
    compute_jump_targets [] (mkInstr "BREAK_LOOP" 10 0 false) empty_meta
      (Block "SETUP_LOOP" 30 NoBlock) = Ok r /\
    targets r = Some [30] /\
    pop (Block "SETUP_LOOP" 30 NoBlock) = Ok NoBlock /\
    new_view r = Block "SETUP_LOOP" 30 NoBlock /\ new_view r <> NoBlock.
Proof.
  eexists; split; [reflexivity |].
  split; [reflexivity | split; [reflexivity | split; [reflexivity | discriminate]]].
Qed.

(** C5 (amended): BREAK_LOOP on a non-empty view appends the nearest loop
    record ([first_loop], [None] if there is none) to the broken-loop list;
    if the top record is a loop record the only successor is its exit
    offset, otherwise the successors are the exceptional targets of the
    view; in both cases the view is propagated unchanged. *)
Theorem break_loop_targets (pool : blockstack) (i : instr) (md : meta) (v : view)
  (Hop : opname i = "BREAK_LOOP") (Hne : v <> NoBlock) :
  compute_jump_targets pool i md v =
  Ok (mkJT (if String.eqb (creator_of v) "SETUP_LOOP"
            then Some [next_offset_of v]
            else exceptional_jump_targets (offset i) v)
           (add_broken_loop md (first_loop v)) v pool).
Proof.
  destruct v as [| c n p]; [congruence |].
  unfold compute_jump_targets; rewrite Hop; cbv zeta.
  cbn -[exceptional_jump_targets first_loop add_broken_loop creator_of next_offset_of].
  destruct (String.eqb (creator_of (Block c n p)) "SETUP_LOOP"); reflexivity.
Qed.

Lemma break_loop_targets_witness :
  compute_jump_targets [] (mkInstr "BREAK_LOOP" 10 0 false) empty_meta
    (Block "SETUP_WITH" 20 (Block "SETUP_LOOP" 30 NoBlock)) =
  Ok (mkJT (if String.eqb (creator_of (Block "SETUP_WITH" 20 (Block "SETUP_LOOP" 30 NoBlock)))
                 "SETUP_LOOP"
            then Some [next_offset_of (Block "SETUP_WITH" 20 (Block "SETUP_LOOP" 30 NoBlock))]
            else exceptional_jump_targets 10 (Block "SETUP_WITH" 20 (Block "SETUP_LOOP" 30 NoBlock)))
           (add_broken_loop empty_meta
              (first_loop (Block "SETUP_WITH" 20 (Block "SETUP_LOOP" 30 NoBlock))))
           (Block "SETUP_WITH" 20 (Block "SETUP_LOOP" 30 NoBlock)) []).
Proof.
  apply (break_loop_targets [] (mkInstr "BREAK_LOOP" 10 0 false) empty_meta
           (Block "SETUP_WITH" 20 (Block "SETUP_LOOP" 30 NoBlock))); [reflexivity | discriminate].
Defined.

(** ** The predecessor join *)

Lemma collect_blocks_keeps (st : state) (off : Z) (preds : list node) (acc res : list blk) :
  collect_blocks st off preds acc = Ok res ->
  (forall b, In b acc -> In b res) /\
  (forall bb v, In bb preds -> is_reachable st (bb_instruction bb) = true ->
     bb_view bb = Some v -> In (pop_until v off) res).
Proof.
  revert acc; induction preds as [| bb rest IH]; intros acc H; cbn [collect_blocks] in H.
  - injection H as <-; split; [tauto | intros ? ? []].
  - destruct (is_reachable st (bb_instruction bb)) eqn:Hr; cbn [negb] in H.
    + destruct (bb_view bb) as [v |] eqn:Hv; [| discriminate H].
      destruct (IH _ H) as [Hacc Hrest].
      assert (Hin : forall b, In b acc -> In b res).
      { intros b Hb; apply Hacc; destruct (blk_in (pop_until v off) acc);
          [exact Hb | apply in_or_app; left; exact Hb]. }
      split; [exact Hin |].
      intros bb' v' [<- | Hbb] Hr' Hv'; [| exact (Hrest bb' v' Hbb Hr' Hv')].
      rewrite Hv in Hv'; injection Hv' as <-.
      destruct (blk_in (pop_until v off) acc) eqn:Hm.
      * apply Hin; unfold blk_in in Hm; apply existsb_exists in Hm as (x & Hx & E).
        unfold blk_eqb in E; destruct (blk_eq_dec (pop_until v off) x); [congruence | discriminate].
      * apply Hacc, in_or_app; right; left; reflexivity.
    + destruct (IH _ H) as [Hacc Hrest]; split; [exact Hacc |].
      intros bb' v' [<- | Hbb] Hr' Hv'; [congruence | exact (Hrest bb' v' Hbb Hr' Hv')].
Qed.

Lemma collect_blocks_ok (st : state) (off : Z) (preds : list node) (acc : list blk) :
  (forall bb, In bb preds -> is_reachable st (bb_instruction bb) = true -> bb_view bb <> None) ->
  exists res, collect_blocks st off preds acc = Ok res.
Proof.
  revert acc; induction preds as [| bb rest IH]; intros acc Hp; cbn [collect_blocks];
    [eexists; reflexivity |].
  destruct (is_reachable st (bb_instruction bb)) eqn:Hr; cbn [negb].
  - destruct (bb_view bb) as [v |] eqn:Hv.
    + apply IH; intros bb' Hin; apply Hp; right; exact Hin.
    + exfalso; apply (Hp bb); [left; reflexivity | exact Hr | exact Hv].
  - apply IH; intros bb' Hin; apply Hp; right; exact Hin.
Qed.

Lemma two_distinct_length {A : Type} (a b : A) (l : list A) :
  In a l -> In b l -> a <> b -> (2 <= List.length l)%nat.
Proof.
  intros Ha Hb Hab; destruct l as [| x [| y l]]; simpl in *.
  - contradiction.
  - destruct Ha as [<- | []]; destruct Hb as [<- | []]; congruence.
  - lia.
Qed.

Lemma collect_blocks_agree (st : state) (off : Z) (t : blk) (preds : list node) :
  (forall bb, In bb preds -> is_reachable st (bb_instruction bb) = true ->
     exists v, bb_view bb = Some v /\ pop_until v off = t) ->
  forall acc, (acc = [] \/ acc = [t]) ->
  collect_blocks st off preds acc =
  Ok (match acc with
      | [] => if existsb (fun bb => is_reachable st (bb_instruction bb)) preds
              then [t] else []
      | _ => [t]
      end).
Proof.
  induction preds as [| bb rest IH]; intros Hp acc Hacc; cbn [collect_blocks existsb].
  - destruct Hacc as [-> | ->]; reflexivity.
  - assert (Hp' : forall bb', In bb' rest -> is_reachable st (bb_instruction bb') = true ->
                  exists v, bb_view bb' = Some v /\ pop_until v off = t)
      by (intros bb' Hin; apply Hp; right; exact Hin).
    destruct (is_reachable st (bb_instruction bb)) eqn:Hr; cbn [negb orb].
    + destruct (Hp bb (or_introl eq_refl) Hr) as (v & Hv & Ht); rewrite Hv; cbv zeta; rewrite Ht.
      destruct Hacc as [-> | ->].
      * unfold blk_in; cbn [existsb app].
        exact (IH Hp' [t] (or_intror eq_refl)).
      * unfold blk_in, blk_eqb; cbn [existsb].
        destruct (blk_eq_dec t t) as [_ | C]; [cbn [orb] | congruence].
        exact (IH Hp' [t] (or_intror eq_refl)).
    + rewrite (IH Hp' acc Hacc); reflexivity.
Qed.

(** C8: if two reachable, already processed predecessors of offset [off]
    yield, after [pop_until off], two different records, the join fails
    with the [AssertionError] of its [assert]; if every reachable
    predecessor yields the same view [t], the join returns [t], or the
    empty view when no predecessor is reachable. *)
Theorem join_blockstack_views_spec (pick : list blk -> blk) (Hpick : pick_ok pick)
  (st : state) (nodes : list node) (off : Z) :
  (forall bb1 bb2 v1 v2 c1 n1 p1 c2 n2 p2,
     In bb1 (predecessors_of nodes off) -> In bb2 (predecessors_of nodes off) ->
     is_reachable st (bb_instruction bb1) = true ->
     is_reachable st (bb_instruction bb2) = true ->
     bb_view bb1 = Some v1 -> bb_view bb2 = Some v2 ->
     pop_until v1 off = Block c1 n1 p1 -> pop_until v2 off = Block c2 n2 p2 ->
     Block c1 n1 p1 <> Block c2 n2 p2 ->
     (forall bb, In bb (predecessors_of nodes off) ->
        is_reachable st (bb_instruction bb) = true -> bb_view bb <> None) ->
     join_blockstack_views pick st nodes off = Err AssertionError) /\
  (forall t,
     (forall bb, In bb (predecessors_of nodes off) ->
        is_reachable st (bb_instruction bb) = true ->
        exists v, bb_view bb = Some v /\ pop_until v off = t) ->
     join_blockstack_views pick st nodes off =
     Ok (if existsb (fun bb => is_reachable st (bb_instruction bb)) (predecessors_of nodes off)
         then t else NoBlock)).
Proof.
  split.
  - intros bb1 bb2 v1 v2 c1 n1 p1 c2 n2 p2 H1 H2 Hr1 Hr2 Hv1 Hv2 Ht1 Ht2 Hne Hproc.
    destruct (collect_blocks_ok st off (predecessors_of nodes off) [] Hproc) as [res Hc].
    destruct (collect_blocks_keeps st off _ [] res Hc) as [_ Hall].
    pose proof (Hall bb1 v1 H1 Hr1 Hv1) as I1; pose proof (Hall bb2 v2 H2 Hr2 Hv2) as I2.
    rewrite Ht1 in I1; rewrite Ht2 in I2.
    pose proof (two_distinct_length _ _ res I1 I2 Hne) as Hlen.
    unfold join_blockstack_views, bind; rewrite Hc.
    destruct (Nat.leb (List.length res) 1) eqn:E; [apply Nat.leb_le in E; lia | reflexivity].
  - intros t Ht; unfold join_blockstack_views, bind.
    rewrite (collect_blocks_agree st off t _ Ht [] (or_introl eq_refl)).
    destruct (existsb _ _); cbn [List.length Nat.leb]; [| reflexivity].
    f_equal; destruct (Hpick [t]) as [E | []]; [discriminate | exact (eq_sym E)].
Qed.

(** Two predecessors at offsets 2 and 6 of offset 8, one still inside a
    finally region ending at 20, the other inside one ending at 30. *)
Definition join_conflict_nodes : list node :=
  [mkNode (mkInstr "NOP" 2 0 false) (Some (Block "SETUP_FINALLY" 20 NoBlock)) [8] empty_meta;
   mkNode (mkInstr "NOP" 6 0 false) (Some (Block "SETUP_EXCEPT" 30 NoBlock)) [8] empty_meta].

Definition join_conflict_state : state := mkState join_conflict_nodes [] [0; 2; 6; 8] [].

Lemma join_blockstack_views_spec_witness :
  join_blockstack_views set_pop_first join_conflict_state join_conflict_nodes 8
  = Err AssertionError.
Proof.
  destruct (join_blockstack_views_spec set_pop_first set_pop_first_ok join_conflict_state
              join_conflict_nodes 8) as [Hdis _].
  apply (Hdis (nth 0 join_conflict_nodes (mkNode function_exit None [] empty_meta))
              (nth 1 join_conflict_nodes (mkNode function_exit None [] empty_meta))
              (Block "SETUP_FINALLY" 20 NoBlock) (Block "SETUP_EXCEPT" 30 NoBlock)
              "SETUP_FINALLY" 20 NoBlock "SETUP_EXCEPT" 30 NoBlock);
    try reflexivity.
  - simpl; tauto.
  - simpl; tauto.
  - discriminate.
  - intros bb Hin _; simpl in Hin;
      destruct Hin as [<- | [<- | []]]; discriminate.
Defined.

(** ** Determinism of the pass *)

Lemma join_blockstack_views_pick_indep (pick1 pick2 : list blk -> blk)
  (H1 : pick_ok pick1) (H2 : pick_ok pick2) (st : state) (nodes : list node) (off : Z) :
  join_blockstack_views pick1 st nodes off = join_blockstack_views pick2 st nodes off.
Proof.
  unfold join_blockstack_views, bind.
  destruct (collect_blocks st off (predecessors_of nodes off) []) as [blocks |]; [| reflexivity].
  destruct (Nat.leb (List.length blocks) 1) eqn:E; [| reflexivity].
  destruct blocks as [| x [| y l]]; [reflexivity | | discriminate E].
  destruct (H1 [x]) as [E1 | []]; [discriminate |].
  destruct (H2 [x]) as [E2 | []]; [discriminate |].
  rewrite <- E1, <- E2; reflexivity.
Qed.

Lemma build_pick_indep (pick1 pick2 : list blk -> blk)
  (H1 : pick_ok pick1) (H2 : pick_ok pick2) (code : list instr) :
  forall st, build pick1 st code = build pick2 st code.
Proof.
  induction code as [| i rest IH]; intros st; cbn [build]; [reflexivity |].
  destruct (negb (is_reachable st i)); [apply IH |].
  rewrite (join_blockstack_views_pick_indep pick1 pick2 H1 H2).
  unfold bind.
  destruct (join_blockstack_views pick2 st _ _) as [v |]; [| reflexivity].
  destruct (compute_jump_targets _ _ _ _) as [r |]; [| reflexivity].
  destruct (targets r); [apply IH | reflexivity].
Qed.

(** C9: the graph is a function of the instruction sequence alone: two
    runs, whose [set.pop] may see the join's set in different hash orders,
    build the same nodes with the same successor lists (or fail alike). *)
Theorem cfg_deterministic (pick1 pick2 : list blk -> blk)
  (H1 : pick_ok pick1) (H2 : pick_ok pick2) (code : list instr) :
  cfg_graph pick1 code = cfg_graph pick2 code.
Proof.
  unfold cfg_graph, CFG; rewrite (build_pick_indep pick1 pick2 H1 H2 code init_state).
  reflexivity.
Qed.

(** [set.pop] taking the other end of the element list. *)
Definition set_pop_last (l : list blk) : blk := last l NoBlock.

Lemma set_pop_last_ok : pick_ok set_pop_last.
Proof.
  intros l Hl; unfold set_pop_last.
  destruct (exists_last Hl) as (l' & x & ->).
  rewrite last_last; apply in_or_app; right; left; reflexivity.
Qed.

Lemma cfg_deterministic_witness :
  cfg_graph set_pop_first prog_try_finally = cfg_graph set_pop_last prog_try_finally /\
  cfg_graph set_pop_first prog_try_finally =
  Ok [(-1, []); (0, [2]); (2, [8; 4]); (4, [8]); (8, [10]); (10, [-1])].
Proof.
  split; [exact (cfg_deterministic set_pop_first set_pop_last
                   set_pop_first_ok set_pop_last_ok prog_try_finally) |].
  vm_compute; reflexivity.
Defined.

(** ** Closure of the successor lists *)

Definition graph_closed (g : list (Z * list Z)) : Prop :=
  forall o succs s, In (o, succs) g -> In s succs -> s = -1 \/ In s (map fst g).

(** Offset 4 is a loop header reached only by the back edge of 8; the
    dead jump at 2 names it first, so it is pruned when visited. *)
Definition prog_back_edge : list instr :=
  [mkInstr "JUMP_FORWARD" 0 6 false;
   mkInstr "JUMP_ABSOLUTE" 2 4 false;
   mkInstr "NOP" 4 0 true;
   mkInstr "NOP" 6 0 true;
   mkInstr "JUMP_ABSOLUTE" 8 4 false;
   mkInstr "RETURN_VALUE" 10 0 false].

(** C6: on [prog_back_edge] the node at 8 lists 4 as successor, and there
    is no node at 4. *)
Theorem cfg_back_edge_not_closed :
  cfg_graph set_pop_first prog_back_edge = Ok [(-1, []); (0, [6]); (6, [8]); (8, [4])] /\
  ~ graph_closed [(-1, []); (0, [6]); (6, [8]); (8, [4])].
Proof.
  split; [vm_compute; reflexivity |].
  intros Hc; destruct (Hc 8 [4] 4) as [E | Hin]; [simpl; tauto | simpl; tauto | lia |].
  simpl in Hin; lia.
Qed.

(** ** Dead-code pruning *)

(** Dead code after a return: offset 4 is the target only of the dead
    jump at 8, which comes after it. *)
Definition prog_dead_target : list instr :=
  [mkInstr "LOAD_CONST" 0 0 false;
   mkInstr "RETURN_VALUE" 2 0 false;
   mkInstr "LOAD_CONST" 4 0 true;
   mkInstr "RETURN_VALUE" 6 0 false;
   mkInstr "JUMP_ABSOLUTE" 8 4 false].

(** C7 (counterexample): the instructions at 4 and 6 follow a return and
    are targeted by no reachable jump (the only jump to 4, at 8, is itself
    skipped), yet both become nodes, and 6 is a successor of the node 4. *)
Lemma cfg_dead_target_kept :
  cfg_graph set_pop_first prog_dead_target =
  Ok [(-1, []); (0, [2]); (2, [-1]); (4, [6]); (6, [-1])].
Proof. vm_compute; reflexivity. Qed.

(** The state after skipping [i]: only the unreachable jump targets change. *)
Definition skip_state (st : state) (i : instr) : state :=
  if jumps (opname i)
  then mkState (basic_blocks st) (pool st) (reachable_instructions st)
               (unreachable_jump_targets st ++ [argval i])
  else st.

Lemma cfg_lookup_dict_set (l : list node) (n : node) :
  cfg_lookup (dict_set l n) (bb_offset n) = Some n.
Proof.
  unfold cfg_lookup; induction l as [| m l IH]; cbn [dict_set find].
  - rewrite Z.eqb_refl; reflexivity.
  - destruct (bb_offset m =? bb_offset n) eqn:E; cbn [find].
    + rewrite Z.eqb_refl; reflexivity.
    + rewrite E; exact IH.
Qed.

(** C7 (amended): an instruction is skipped exactly when its offset is not
    in the reachable set and it is either not marked as a jump target or
    already recorded as an unreachable jump target; a skipped instruction
    adds no node, and a skipped jump adds its argument to the unreachable
    jump targets.  Every other instruction, in particular a dead one that
    is marked as a jump target and not yet recorded unreachable, is
    processed: unless the join or the resolver raises, the pass goes on
    with a node for it at its offset, whose successors are added to the
    reachable set. *)
Theorem cfg_skip_rule (pick : list blk -> blk) (st : state) (i : instr) (rest : list instr) :
  (is_reachable st i = false <->
   ~ In (offset i) (reachable_instructions st) /\
   (is_jump_target i = false \/ In (offset i) (unreachable_jump_targets st))) /\
  (is_reachable st i = false ->
   build pick st (i :: rest) = build pick (skip_state st i) rest /\
   basic_blocks (skip_state st i) = basic_blocks st /\
   reachable_instructions (skip_state st i) = reachable_instructions st /\
   unreachable_jump_targets (skip_state st i) =
     unreachable_jump_targets st ++ (if jumps (opname i) then [argval i] else [])) /\
  (is_reachable st i = true ->
   (exists e, build pick st (i :: rest) = Err e) \/
   exists st1 n,
     build pick st (i :: rest) = build pick st1 rest /\
     cfg_lookup (basic_blocks st1) (offset i) = Some n /\ bb_instruction n = i /\
     reachable_instructions st1 = reachable_instructions st ++ bb_successors n /\
     unreachable_jump_targets st1 = unreachable_jump_targets st).
Proof.
  assert (Hz : forall z l, z_in z l = true <-> In z l).
  { intros z l; unfold z_in; rewrite existsb_exists; split.
    - intros (x & Hx & E); apply Z.eqb_eq in E; subst; exact Hx.
    - intros H; exists z; split; [exact H | apply Z.eqb_refl]. }
  split; [| split].
  - unfold is_reachable.
    destruct (z_in (offset i) (reachable_instructions st)) eqn:Hr.
    + split; [discriminate | intros [Hn _]; apply Hz in Hr; contradiction].
    + assert (Hn : ~ In (offset i) (reachable_instructions st))
        by (rewrite <- Hz, Hr; discriminate).
      destruct (is_jump_target i);
        destruct (z_in (offset i) (unreachable_jump_targets st)) eqn:Hu; cbn [negb].
      * apply Hz in Hu; tauto.
      * split; [discriminate |].
        intros [_ [H | H]]; [discriminate | apply Hz in H; congruence].
      * tauto.
      * tauto.
  - intros Hf; cbn [build]; rewrite Hf; cbn [negb].
    unfold skip_state; destruct (jumps (opname i)); cbn.
    + repeat split.
    + rewrite app_nil_r; repeat split.
  - intros Ht; cbn [build]; rewrite Ht; cbn [negb]; unfold bind.
    destruct (join_blockstack_views pick st _ _) as [v | e]; [| left; exists e; reflexivity].
    destruct (compute_jump_targets _ _ _ _) as [r | e]; [| left; exists e; reflexivity].
    destruct (targets r) as [succs |]; [| left; exists TypeError; reflexivity].
    right; eexists; exists (mkNode i (Some (new_view r)) succs (new_meta r)).
    split; [reflexivity |]; cbn [basic_blocks reachable_instructions unreachable_jump_targets].
    split; [exact (cfg_lookup_dict_set _ (mkNode i (Some (new_view r)) succs (new_meta r))) |].
    repeat split.
Qed.

(** The dead jump at 2 is skipped; the dead jump target at 4 (as in
    [prog_dead_target]) is processed into a node whose successor 6
    becomes reachable. *)
Lemma cfg_skip_rule_witness :
  (build set_pop_first init_state (mkInstr "JUMP_ABSOLUTE" 2 4 false :: []) =
   build set_pop_first (skip_state init_state (mkInstr "JUMP_ABSOLUTE" 2 4 false)) [] /\
   unreachable_jump_targets (skip_state init_state (mkInstr "JUMP_ABSOLUTE" 2 4 false)) = [4]) /\
  (exists st1 n,
     build set_pop_first init_state (mkInstr "LOAD_CONST" 4 0 true :: []) =
       build set_pop_first st1 [] /\
     cfg_lookup (basic_blocks st1) 4 = Some n /\
     bb_instruction n = mkInstr "LOAD_CONST" 4 0 true /\
     reachable_instructions st1 = [0] ++ bb_successors n /\
     unreachable_jump_targets st1 = [] /\ bb_successors n = [6]).
Proof.
  split.
  - destruct (cfg_skip_rule set_pop_first init_state (mkInstr "JUMP_ABSOLUTE" 2 4 false) [])
      as [_ [Hskip _]].
    destruct (Hskip eq_refl) as (E & _ & _ & U).
    split; [exact E | rewrite U; reflexivity].
  - destruct (cfg_skip_rule set_pop_first init_state (mkInstr "LOAD_CONST" 4 0 true) [])
      as [_ [_ Hproc]].
    destruct (Hproc eq_refl) as [[e He] | (st1 & n & E & L & I & R & U)];
      [vm_compute in He; discriminate He |].
    exists st1, n; split; [exact E | split; [exact L | split; [exact I |]]].
    split; [exact R | split; [exact U |]].
    vm_compute in E; injection E as <-; vm_compute in L; injection L as <-; reflexivity.
Defined.

(** * Further properties of the handler stack and the resolver *)

(** [pop_until v off] drops exactly the top records whose exit offset is at
    or below [off]: the view is those records followed by the result, and
    the result's top (if any) ends strictly after [off]. *)
Theorem pop_until_split (v : view) (off : Z) :
  exists dropped,
    iter_view v = dropped ++ iter_view (pop_until v off) /\
    Forall (fun b => next_offset_of b <= off) dropped /\
    above off (pop_until v off).
Proof.
  induction v as [| c n p IH].
  - exists []; repeat split; constructor.
  - cbn [pop_until]; destruct (n <=? off) eqn:E.
    + destruct IH as (d & Hd & Hf & Ha); exists (Block c n p :: d).
      cbn [iter_view]; rewrite Hd; repeat split; [| exact Ha].
      constructor; [cbn; lia | exact Hf].
    + exists []; repeat split; [constructor |]; cbn [above]; lia.
Qed.

(** Popping until [a] and then until [b >= a] is popping until [b]. *)
Theorem pop_until_compose (v : view) (a b : Z) (Hab : a <= b) :
  pop_until (pop_until v a) b = pop_until v b.
Proof.
  induction v as [| c n p IH]; [reflexivity |]; cbn [pop_until].
  destruct (n <=? a) eqn:Ea.
  - rewrite IH; assert (Eb : (n <=? b) = true) by (apply Z.leb_le in Ea; apply Z.leb_le; lia).
    rewrite Eb; reflexivity.
  - cbn [pop_until]; reflexivity.
Qed.

Lemma pop_until_compose_witness :
  pop_until (pop_until (Block "SETUP_EXCEPT" 10 (Block "SETUP_LOOP" 30 NoBlock)) 12) 40 =
  pop_until (Block "SETUP_EXCEPT" 10 (Block "SETUP_LOOP" 30 NoBlock)) 40.
Proof. apply pop_until_compose; lia. Defined.

(** [blockstack_view[k]]: a negative index raises [ValueError], an index
    at or past the depth of the view raises [IndexError], and an index in
    range gives the [k]-th record from the top (0 being the top). *)
Theorem getitem_bounds (v : view) (k : Z) :
  (k < 0 -> getitem v k = Err ValueError) /\
  (Z.of_nat (List.length (iter_view v)) <= k -> getitem v k = Err IndexError) /\
  (0 <= k < Z.of_nat (List.length (iter_view v)) ->
   exists b, getitem v k = Ok b /\ nth_error (iter_view v) (Z.to_nat k) = Some b /\
             b <> NoBlock).
Proof.
  assert (Hnb : forall w b, In b (iter_view w) -> b <> NoBlock).
  { induction w as [| c n p IH]; cbn [iter_view In]; [tauto |].
    intros b [<- | H]; [discriminate | exact (IH b H)]. }
  unfold getitem; split; [| split].
  - intros Hk; destruct (k >=? 0) eqn:E; [apply Z.geb_le in E; lia | reflexivity].
  - intros Hk; destruct (k >=? 0) eqn:E; [| rewrite Z.geb_leb in E; apply Z.leb_gt in E; lia].
    cbn [negb]; rewrite (proj2 (nth_error_None _ _)); [reflexivity | lia].
  - intros Hk; destruct (k >=? 0) eqn:E; [| rewrite Z.geb_leb in E; apply Z.leb_gt in E; lia].
    cbn [negb]; destruct (nth_error (iter_view v) (Z.to_nat k)) as [b |] eqn:Hn.
    + exists b; repeat split; apply (Hnb v), (nth_error_In _ _ Hn).
    + apply nth_error_None in Hn; lia.
Qed.

(** [_first_X] returns the first record from the top whose creator is [X],
    or [None] when there is none: the records above it all have another
    creator. *)
Theorem first_X_spec (v : view) (X : string) :
  exists above_recs,
    iter_view v = above_recs ++ iter_view (first_X v X) /\
    Forall (fun b => creator_of b <> X) above_recs /\
    (first_X v X = NoBlock \/ creator_of (first_X v X) = X).
Proof.
  induction v as [| c n p IH]; [exists []; repeat split; [constructor | left; reflexivity] |].
  cbn [first_X]; destruct (String.eqb c X) eqn:E.
  - exists []; repeat split; [constructor |]; right; apply String.eqb_eq, E.
  - destruct IH as (a & Ha & Hf & Hr); exists (Block c n p :: a).
    cbn [iter_view]; rewrite Ha; repeat split; [| exact Hr].
    constructor; [cbn; apply String.eqb_neq, E | exact Hf].
Qed.

(** On a view built by the scope-entry opcodes, [exceptional_jump_targets]
    yields at most one target: the handler entry of the first
    except/finally/with record from the top whose entry lies after the
    offset, or nothing when no such record exists (loop records and
    handlers already entered are skipped). *)
Theorem exceptional_jump_targets_nearest (off : Z) (v : view)
  (Hv : creators_closed v = true) :
  (exceptional_jump_targets off v = Some [] /\
   forallb (fun b => negb (handler_catches off b)) (iter_view v) = true) \/
  (exists pre b post,
     iter_view v = pre ++ b :: post /\
     forallb (fun x => negb (handler_catches off x)) pre = true /\
     handler_catches off b = true /\
     exceptional_jump_targets off v = Some [next_offset_of b]).
Proof.
  induction v as [| c n p IH]; [left; split; reflexivity |].
  cbn [creators_closed] in Hv; apply andb_true_iff in Hv as [Hc Hp].
  specialize (IH Hp); cbn [exceptional_jump_targets iter_view].
  destruct (str_in c exception_handling_ops) eqn:He; [destruct (off <? n) eqn:Hn |].
  - right; exists [], (Block c n p), (iter_view p); cbn [handler_catches forallb app].
    rewrite He, Hn; repeat split.
  - destruct IH as [[E F] | (pre & b & post & Hs & F & Hb & E)].
    + left; split; [exact E |]; cbn [forallb handler_catches]; rewrite He, Hn; exact F.
    + right; exists (Block c n p :: pre), b, post; cbn [forallb handler_catches app].
      rewrite Hs, He, Hn; repeat split; assumption.
  - assert (Hl : String.eqb c "SETUP_LOOP" = true).
    { apply str_in_In in Hc; apply String.eqb_eq.
      assert (Hn : ~ In c exception_handling_ops) by (rewrite <- str_in_In, He; discriminate).
      simpl in Hc, Hn; intuition congruence. }
    rewrite Hl.
    destruct IH as [[E F] | (pre & b & post & Hs & F & Hb & E)].
    + left; split; [exact E |]; cbn [forallb handler_catches]; rewrite He; exact F.
    + right; exists (Block c n p :: pre), b, post; cbn [forallb handler_catches app].
      rewrite Hs, He; repeat split; assumption.
Qed.

Lemma exceptional_jump_targets_nearest_witness :
  exceptional_jump_targets 24
    (Block "SETUP_EXCEPT" 20 (Block "SETUP_LOOP" 30 (Block "SETUP_FINALLY" 50 NoBlock)))
  = Some [50] /\
  ((exceptional_jump_targets 24
      (Block "SETUP_EXCEPT" 20 (Block "SETUP_LOOP" 30 (Block "SETUP_FINALLY" 50 NoBlock)))
    = Some [] /\
    forallb (fun b => negb (handler_catches 24 b))
      (iter_view (Block "SETUP_EXCEPT" 20
                    (Block "SETUP_LOOP" 30 (Block "SETUP_FINALLY" 50 NoBlock)))) = true) \/
   (exists pre b post,
      iter_view (Block "SETUP_EXCEPT" 20
                   (Block "SETUP_LOOP" 30 (Block "SETUP_FINALLY" 50 NoBlock)))
        = pre ++ b :: post /\
      forallb (fun x => negb (handler_catches 24 x)) pre = true /\
      handler_catches 24 b = true /\
      exceptional_jump_targets 24
        (Block "SETUP_EXCEPT" 20 (Block "SETUP_LOOP" 30 (Block "SETUP_FINALLY" 50 NoBlock)))
      = Some [next_offset_of b])).
Proof.
  split; [reflexivity |].
  apply exceptional_jump_targets_nearest; reflexivity.
Defined.

Lemma compute_jump_targets_view_pool_cases (pool : blockstack) (i : instr) (md : meta)
  (v : view) (r : jt_result) (H : compute_jump_targets pool i md v = Ok r) :
  (new_view r = v /\ new_pool r = pool) \/
  (In (opname i) scope_entry_ops /\
   new_view r = Block (opname i) (argval i) v /\ new_pool r = pool ++ [new_view r]).
Proof.
  unfold compute_jump_targets, bind, push in H; cbv zeta in H.
  split_ifs H; try discriminate H; injection H as <-; try (left; split; reflexivity).
  right; cbn [new_view new_pool]; repeat split.
  match goal with E : str_in (opname i) _ = true |- _ => apply str_in_In in E end.
  simpl in *; tauto.
Qed.

(** [compute_jump_targets] pushes exactly for the four scope-entry
    opcodes: they put one record (the opcode and its argument) on top of
    the view and append it to the shared pool; every other opcode leaves
    the view and the pool alone. *)
Theorem compute_jump_targets_view_pool (pool : blockstack) (i : instr) (md : meta)
  (v : view) (r : jt_result) (H : compute_jump_targets pool i md v = Ok r) :
  (In (opname i) scope_entry_ops ->
   new_view r = Block (opname i) (argval i) v /\ new_pool r = pool ++ [new_view r]) /\
  (~ In (opname i) scope_entry_ops -> new_view r = v /\ new_pool r = pool).
Proof.
  split; intros Hin.
  - cbn [scope_entry_ops In] in Hin.
    unfold compute_jump_targets in H.
    destruct Hin as [E | [E | [E | [E | []]]]]; rewrite <- E in H |- *;
      vm_compute in H; injection H as <-; split; reflexivity.
  - destruct (compute_jump_targets_view_pool_cases pool i md v r H) as [E | (E & _)];
      [exact E | contradiction].
Qed.

Lemma compute_jump_targets_view_pool_witness :
  exists r,
    compute_jump_targets [] (mkInstr "SETUP_LOOP" 0 30 false) empty_meta NoBlock = Ok r /\
    In (opname (mkInstr "SETUP_LOOP" 0 30 false)) scope_entry_ops /\
    new_view r = Block "SETUP_LOOP" 30 NoBlock /\ new_pool r = [] ++ [new_view r].
Proof.
  eexists; split; [reflexivity |].
  assert (Hin : In (opname (mkInstr "SETUP_LOOP" 0 30 false)) scope_entry_ops)
    by (left; reflexivity).
  split; [exact Hin |].
  apply (compute_jump_targets_view_pool [] (mkInstr "SETUP_LOOP" 0 30 false) empty_meta NoBlock);
    [reflexivity | exact Hin].
Defined.

(** Path metadata only grows through [compute_jump_targets]: "has return"
    and "has except" are never cleared, and the broken-loop list is kept
    and extended by at most one record (only BREAK_LOOP adds one). *)
Theorem compute_jump_targets_meta_grows (pool : blockstack) (i : instr) (md : meta)
  (v : view) (r : jt_result) (H : compute_jump_targets pool i md v = Ok r) :
  (has_return md = true -> has_return (new_meta r) = true) /\
  (has_except md = true -> has_except (new_meta r) = true) /\
  exists ext, broken_loops (new_meta r) = broken_loops md ++ ext /\
              (List.length ext <= 1)%nat /\
              (ext <> [] -> opname i = "BREAK_LOOP").
Proof.
  assert (Hsame : forall m, m = md ->
    (has_return md = true -> has_return m = true) /\
    (has_except md = true -> has_except m = true) /\
    exists ext, broken_loops m = broken_loops md ++ ext /\ (List.length ext <= 1)%nat /\
                (ext <> [] -> opname i = "BREAK_LOOP")).
  { intros m ->; split; [tauto | split; [tauto |]].
    exists []; rewrite app_nil_r; split; [reflexivity | split; [cbn; lia | intros C; congruence]]. }
  unfold compute_jump_targets, bind, push in H; cbv zeta in H.
  split_ifs H; try discriminate H; injection H as <-; cbn [new_meta];
    try (apply Hsame; reflexivity).
  all: cbn [has_return has_except broken_loops add_broken_loop set_has_return set_has_except];
    split; [tauto | split; [tauto |]];
    first [ exists []; rewrite app_nil_r;
            split; [reflexivity | split; [cbn; lia | intros C; congruence]]
          | exists [first_loop v];
            split; [reflexivity | split; [cbn; lia | intros _; apply String.eqb_eq; assumption]] ].
Qed.


Lemma compute_jump_targets_meta_grows_witness :
  exists r,
    compute_jump_targets [] (mkInstr "BREAK_LOOP" 4 0 false) (mkMeta true false [])
      (Block "SETUP_LOOP" 30 NoBlock) = Ok r /\
    has_return (new_meta r) = true /\
    broken_loops (new_meta r) = [Block "SETUP_LOOP" 30 NoBlock].
Proof.
  eexists; split; [reflexivity |].
  destruct (compute_jump_targets_meta_grows [] (mkInstr "BREAK_LOOP" 4 0 false)
              (mkMeta true false []) (Block "SETUP_LOOP" 30 NoBlock) _ eq_refl)
    as (Hr & _ & ext & He & _).
  split; [exact (Hr eq_refl) | reflexivity].
Defined.

(** Every opcode other than BREAK_LOOP and CONTINUE_LOOP gets at least one
    successor; those two may get none (the exceptional targets of a view
    with no handler left to enter), or [None]. *)
Theorem compute_jump_targets_nonempty (pool : blockstack) (i : instr) (md : meta)
  (v : view) (r : jt_result) (H : compute_jump_targets pool i md v = Ok r)
  (Hb : opname i <> "BREAK_LOOP") (Hc : opname i <> "CONTINUE_LOOP") :
  exists ts, targets r = Some ts /\ ts <> [].
Proof.
  unfold compute_jump_targets, bind, push in H; cbv zeta in H.
  split_ifs H; try discriminate H; injection H as <-; cbn [targets];
    try (exfalso; first [ apply Hb; apply String.eqb_eq; assumption
                        | apply Hc; apply String.eqb_eq; assumption ]).
  all: eexists; split; [reflexivity |]; intros C.
  all: repeat match type of C with
         | context [match ?x with [] => _ | _ :: _ => _ end] => destruct x
         end; cbn [app] in C; try discriminate C.
  all: apply app_eq_nil in C; destruct C as [_ C]; discriminate C.
Qed.

Lemma compute_jump_targets_nonempty_witness :
  exists r ts,
    compute_jump_targets [] (mkInstr "RETURN_VALUE" 4 0 false) empty_meta NoBlock = Ok r /\
    targets r = Some ts /\ ts <> [].
Proof.
  eexists; destruct (compute_jump_targets_nonempty [] (mkInstr "RETURN_VALUE" 4 0 false)
                       empty_meta NoBlock _ eq_refl) as (ts & Hts & Hne);
    [discriminate | discriminate |].
  exists ts; split; [reflexivity | split; [exact Hts | exact Hne]].
Defined.

(** BREAK_LOOP and CONTINUE_LOOP read [blockstack_view[0]] unguarded: on
    an empty view they raise [IndexError]. *)
Theorem break_continue_empty_view (pool : blockstack) (i : instr) (md : meta)
  (Hop : opname i = "BREAK_LOOP" \/ opname i = "CONTINUE_LOOP") :
  compute_jump_targets pool i md NoBlock = Err IndexError.
Proof.
  unfold compute_jump_targets; destruct Hop as [Hop | Hop]; rewrite Hop; reflexivity.
Qed.

Lemma break_continue_empty_view_witness :
  compute_jump_targets [] (mkInstr "CONTINUE_LOOP" 6 0 false) empty_meta NoBlock
  = Err IndexError.
Proof. apply break_continue_empty_view; right; reflexivity. Defined.

Lemma fold_join_meta (preds : list node) (md : meta) :
  fold_left join_meta_step preds md =
  mkMeta (has_return md || existsb (fun bb => has_return (bb_meta bb)) preds)
         (has_except md || existsb (fun bb => has_except (bb_meta bb)) preds)
         (broken_loops md ++ List.concat (map (fun bb => broken_loops (bb_meta bb)) preds)).
Proof.
  revert md; induction preds as [| bb rest IH]; intros md; cbn [fold_left existsb map List.concat].
  - destruct md; cbn; rewrite !orb_false_r, app_nil_r; reflexivity.
  - rewrite IH; cbn [join_meta_step has_return has_except broken_loops].
    rewrite !orb_assoc, app_assoc; reflexivity.
Qed.

(** [join_path_metadata] is the union over every node listing the offset
    as a successor: "has return" / "has except" hold if some predecessor
    has them, and the broken-loop lists are concatenated in node order.
    Unlike [join_blockstack_views], predecessors that [is_reachable] would
    reject are not skipped. *)
Theorem join_path_metadata_union (nodes : list node) (off : Z) :
  join_path_metadata nodes off =
  mkMeta (existsb (fun bb => has_return (bb_meta bb)) (predecessors_of nodes off))
         (existsb (fun bb => has_except (bb_meta bb)) (predecessors_of nodes off))
         (List.concat (map (fun bb => broken_loops (bb_meta bb)) (predecessors_of nodes off))).
Proof. unfold join_path_metadata; rewrite fold_join_meta; reflexivity. Qed.

(** ** Invariants of the forward pass *)

Lemma z_in_In (z : Z) (l : list Z) : z_in z l = true <-> In z l.
Proof.
  unfold z_in; rewrite existsb_exists; split.
  - intros (x & Hx & E); apply Z.eqb_eq in E; subst; exact Hx.
  - intros H; exists z; split; [exact H | apply Z.eqb_refl].
Qed.

Lemma dict_set_In (l : list node) (m n : node) : In n (dict_set l m) -> In n l \/ n = m.
Proof.
  induction l as [| x l IH]; cbn [dict_set]; [intros [<- | []]; right; reflexivity |].
  destruct (bb_offset x =? bb_offset m).
  - intros [<- | H]; [right; reflexivity | left; right; exact H].
  - intros [<- | H]; [left; left; reflexivity |].
    destruct (IH H) as [H' | H']; [left; right; exact H' | right; exact H'].
Qed.

Lemma pop_until_closed (v : view) (off : Z) :
  creators_closed v = true -> creators_closed (pop_until v off) = true.
Proof.
  induction v as [| c n p IH]; intros Hv; [reflexivity |]; cbn [pop_until].
  destruct (n <=? off); [| exact Hv].
  apply IH; cbn [creators_closed] in Hv; apply andb_true_iff in Hv; tauto.
Qed.

Definition view_ok (n : node) : Prop :=
  match bb_view n with Some v => creators_closed v = true | None => True end.

Lemma collect_blocks_closed (st : state) (off : Z) (preds : list node) (acc res : list blk) :
  Forall view_ok preds -> Forall (fun b => creators_closed b = true) acc ->
  collect_blocks st off preds acc = Ok res -> Forall (fun b => creators_closed b = true) res.
Proof.
  revert acc; induction preds as [| bb rest IH]; intros acc Hp Hacc H;
    cbn [collect_blocks] in H; [injection H as <-; exact Hacc |].
  inversion Hp as [| ? ? Hbb Hrest]; subst.
  destruct (negb (is_reachable st (bb_instruction bb))); [exact (IH acc Hrest Hacc H) |].
  unfold view_ok in Hbb; destruct (bb_view bb) as [v |]; [| discriminate H].
  refine (IH _ Hrest _ H); destruct (blk_in (pop_until v off) acc); [exact Hacc |].
  apply Forall_app; split; [exact Hacc | constructor; [apply pop_until_closed, Hbb | constructor]].
Qed.

Lemma join_blockstack_views_closed (pick : list blk -> blk) (Hpick : pick_ok pick)
  (st : state) (nodes : list node) (off : Z) (v : view) :
  Forall view_ok nodes -> join_blockstack_views pick st nodes off = Ok v ->
  creators_closed v = true.
Proof.
  intros Hn; unfold join_blockstack_views, bind.
  destruct (collect_blocks st off (predecessors_of nodes off) []) as [blocks |] eqn:Hc;
    [| discriminate].
  assert (Hp : Forall view_ok (predecessors_of nodes off)).
  { rewrite Forall_forall in *; intros x Hx; apply Hn; unfold predecessors_of in Hx;
      apply filter_In in Hx; tauto. }
  pose proof (collect_blocks_closed st off _ [] blocks Hp (Forall_nil _) Hc) as Hf.
  destruct (Nat.leb (List.length blocks) 1); [| discriminate].
  intros H; injection H as <-; destruct blocks as [| b l]; [reflexivity |].
  rewrite Forall_forall in Hf; apply Hf, Hpick; discriminate.
Qed.

Lemma dict_set_Forall (P : node -> Prop) (l : list node) (m : node) :
  Forall P l -> P m -> Forall P (dict_set l m).
Proof.
  intros Hl Hm; rewrite Forall_forall in *; intros x Hx.
  destruct (dict_set_In l m x Hx) as [H | ->]; [exact (Hl x H) | exact Hm].
Qed.

Lemma build_views_closed (pick : list blk -> blk) (Hpick : pick_ok pick) (code : list instr) :
  forall st st', Forall view_ok (basic_blocks st) -> build pick st code = Ok st' ->
  Forall view_ok (basic_blocks st').
Proof.
  induction code as [| i rest IH]; intros st st' Hst H; cbn [build] in H;
    [injection H as <-; exact Hst |].
  destruct (negb (is_reachable st i)).
  - refine (IH _ _ _ H); destruct (jumps (opname i)); exact Hst.
  - unfold bind in H.
    assert (H1 : Forall view_ok (dict_set (basic_blocks st) (mkNode i None [] empty_meta)))
      by (apply dict_set_Forall; [exact Hst | exact I]).
    destruct (join_blockstack_views pick st _ _) as [v |] eqn:Hj; [| discriminate H].
    pose proof (join_blockstack_views_closed pick Hpick st _ _ v H1 Hj) as Hv.
    destruct (compute_jump_targets _ _ _ _) as [r |] eqn:Hr; [| discriminate H].
    destruct (targets r); [| discriminate H].
    refine (IH _ _ _ H); cbn [basic_blocks]; apply dict_set_Forall; [exact H1 |].
    exact (compute_jump_targets_closed _ _ _ _ _ Hv Hr).
Qed.

(** Every node of a graph the pass builds carries a view whose records were
    all pushed by the four scope-entry opcodes (the sentinel carries none),
    so the fall-through of [exceptional_jump_targets] is never reached on
    them. *)
Theorem cfg_views_closed (pick : list blk -> blk) (Hpick : pick_ok pick)
  (code : list instr) (st : state) (H : CFG pick code = Ok st) :
  forall n, In n (basic_blocks st) ->
  match bb_view n with Some v => creators_closed v = true | None => True end.
Proof.
  intros n Hn; pose proof (build_views_closed pick Hpick code init_state st) as Hb.
  unfold CFG in H; specialize (Hb (Forall_cons _ (I : view_ok (mkNode function_exit None [] empty_meta)) (Forall_nil _)) H).
  rewrite Forall_forall in Hb; exact (Hb n Hn).
Qed.

Lemma cfg_views_closed_witness :
  exists st, CFG set_pop_first prog_try_finally = Ok st /\
  forall n, In n (basic_blocks st) ->
  match bb_view n with Some v => creators_closed v = true | None => True end.
Proof.
  eexists; split; [vm_compute; reflexivity |].
  apply (cfg_views_closed set_pop_first set_pop_first_ok prog_try_finally).
  vm_compute; reflexivity.
Defined.

Definition sentinel_node : node := mkNode function_exit None [] empty_meta.

Lemma build_sentinel_first (pick : list blk -> blk) (code : list instr) :
  Forall (fun i => offset i <> -1) code ->
  forall st st' rest, basic_blocks st = sentinel_node :: rest ->
  Forall (fun n => bb_offset n <> -1) rest ->
  build pick st code = Ok st' ->
  exists rest', basic_blocks st' = sentinel_node :: rest' /\
                Forall (fun n => bb_offset n <> -1) rest'.
Proof.
  induction code as [| i code IH]; intros Hc st st' rest Hs Hr H; cbn [build] in H;
    [injection H as <-; exists rest; split; assumption |].
  inversion Hc as [| ? ? Hi Hc']; subst.
  assert (Hset : forall l m, offset (bb_instruction m) <> -1 ->
            dict_set (sentinel_node :: l) m = sentinel_node :: dict_set l m).
  { intros l m Hm; cbn [dict_set]; unfold bb_offset at 1;
      cbn [sentinel_node bb_instruction function_exit offset].
    destruct (-1 =? bb_offset m) eqn:E; [apply Z.eqb_eq in E; unfold bb_offset in E; lia |].
    reflexivity. }
  destruct (negb (is_reachable st i)).
  - refine (IH Hc' _ _ rest _ Hr H); destruct (jumps (opname i)); exact Hs.
  - unfold bind in H; rewrite Hs in H.
    rewrite (Hset rest (mkNode i None [] empty_meta) Hi) in H.
    assert (F1 : Forall (fun n => bb_offset n <> -1) (dict_set rest (mkNode i None [] empty_meta)))
      by (apply dict_set_Forall; [exact Hr | exact Hi]).
    destruct (join_blockstack_views pick st _ _) as [v |]; [| discriminate H].
    destruct (compute_jump_targets _ _ _ _) as [r |]; [| discriminate H].
    destruct (targets r) as [succs |]; [| discriminate H].
    refine (IH Hc' _ _ (dict_set (dict_set rest (mkNode i None [] empty_meta))
                          (mkNode i (Some (new_view r)) succs (new_meta r))) _ _ H).
    + cbn [basic_blocks]; exact (Hset _ (mkNode i (Some (new_view r)) succs (new_meta r)) Hi).
    + apply dict_set_Forall; [exact F1 | exact Hi].
Qed.

(** When no instruction sits at offset [-1], the function-exit sentinel
    stays the first node of the graph, keeps no successors, and is the only
    node at [-1]: [cfg[-1]] is the sentinel. *)
Theorem cfg_sentinel_first (pick : list blk -> blk) (code : list instr) (st : state)
  (Hc : Forall (fun i => offset i <> -1) code) (H : CFG pick code = Ok st) :
  exists rest, basic_blocks st = sentinel_node :: rest /\
               Forall (fun n => bb_offset n <> -1) rest /\
               cfg_lookup (basic_blocks st) (-1) = Some sentinel_node /\
               bb_successors sentinel_node = [].
Proof.
  destruct (build_sentinel_first pick code Hc init_state st [] eq_refl (Forall_nil _) H)
    as (rest & Hs & Hr).
  exists rest; rewrite Hs; repeat split; exact Hr.
Qed.

Lemma cfg_sentinel_first_witness :
  exists st, CFG set_pop_first prog_try_finally = Ok st /\
  exists rest, basic_blocks st = sentinel_node :: rest /\
               Forall (fun n => bb_offset n <> -1) rest /\
               cfg_lookup (basic_blocks st) (-1) = Some sentinel_node /\
               bb_successors sentinel_node = [].
Proof.
  eexists; split; [vm_compute; reflexivity |].
  apply (cfg_sentinel_first set_pop_first prog_try_finally).
  - repeat constructor; cbn; lia.
  - vm_compute; reflexivity.
Defined.

(** ** Following a path through the graph *)

Lemma try_path_pairs_spec (nodes : list node) (pairs : list (Z * Z)) :
  try_path_pairs nodes pairs <> inr false /\
  (try_path_pairs nodes pairs = inr true <->
   forall a b, In (a, b) pairs ->
   exists bb, cfg_lookup nodes a = Some bb /\ (In b (bb_successors bb) \/ a = b)).
Proof.
  induction pairs as [| [a b] rest [IHf IHt]]; cbn [try_path_pairs].
  - split; [discriminate |]; split; [intros _ a b [] | reflexivity].
  - destruct (cfg_lookup nodes a) as [bb |] eqn:Ha.
    + destruct (z_in b (bb_successors bb)) eqn:Hin.
      * split; [exact IHf |]; rewrite IHt; split.
        -- intros Hr x y [E | Hxy]; [injection E as <- <-; exists bb; split;
             [exact Ha | left; apply z_in_In, Hin] | exact (Hr x y Hxy)].
        -- intros Hr x y Hxy; exact (Hr x y (or_intror Hxy)).
      * destruct (cfg_lookup nodes b) as [bb' |] eqn:Hb.
        -- destruct (a =? b) eqn:Eab.
           ++ split; [exact IHf |]; rewrite IHt; split.
              ** intros Hr x y [E | Hxy]; [injection E as <- <-; exists bb; split;
                   [exact Ha | right; apply Z.eqb_eq, Eab] | exact (Hr x y Hxy)].
              ** intros Hr x y Hxy; exact (Hr x y (or_intror Hxy)).
           ++ split; [discriminate |]; split; [discriminate |].
              intros Hr; destruct (Hr a b (or_introl eq_refl)) as (bb0 & E & [Hy | Hy]).
              ** rewrite Ha in E; injection E as <-; apply z_in_In in Hy; congruence.
              ** subst; rewrite Z.eqb_refl in Eab; discriminate.
        -- split; [discriminate |]; split; [discriminate |].
           intros Hr; destruct (Hr a b (or_introl eq_refl)) as (bb0 & E & [Hy | Hy]).
           ++ rewrite Ha in E; injection E as <-; apply z_in_In in Hy; congruence.
           ++ subst; congruence.
    + split; [discriminate |]; split; [discriminate |].
      intros Hr; destruct (Hr a b (or_introl eq_refl)) as (bb0 & E & _); congruence.
Qed.

(** [try_path] never answers [False]: it either raises or returns [True],
    and it returns [True] exactly when every consecutive pair [(a, b)] of
    the path has a basic block at [a] that lists [b] as a successor or
    repeats [a]. *)
Theorem try_path_spec (path : list Z) (nodes : list node) :
  try_path path nodes <> inr false /\
  (try_path path nodes = inr true <->
   forall a b, In (a, b) (combine path (tl path)) ->
   exists bb, cfg_lookup nodes a = Some bb /\ (In b (bb_successors bb) \/ a = b)).
Proof. exact (try_path_pairs_spec nodes (combine path (tl path))). Qed.

(** The exception [try_path] raises is decided by the first pair that
    fails: once a prefix [pre ++ [a]] is followed, the pair [(a, b)] that
    comes next is checked for a block at [a], then for a block at [b], then
    for the edge, and the rest of the path is followed from [b]. *)
Theorem try_path_first_failure (nodes : list node) (pre : list Z) (a b : Z) (rest : list Z)
  (Hok : try_path (pre ++ [a]) nodes = inr true) :
  try_path (pre ++ a :: b :: rest) nodes =
  match cfg_lookup nodes a with
  | None => inl (MissingBasicBlockException a)
  | Some bb =>
      if z_in b (bb_successors bb) then try_path (b :: rest) nodes
      else match cfg_lookup nodes b with
           | None => inl (KeyError b)
           | Some _ => if a =? b then try_path (b :: rest) nodes
                       else inl (MissingSuccessorException a b)
           end
  end.
Proof.
  unfold try_path in *.
  assert (Hsplit : forall l, l <> [] ->
            combine (l ++ b :: rest) (tl (l ++ b :: rest)) =
            combine l (tl l) ++ (last l a, b) :: combine (b :: rest) (tl (b :: rest))).
  { induction l as [| x l IH]; [intros C; congruence |]; intros _.
    destruct l as [| y l]; [reflexivity |].
    cbn [app tl combine]; cbn [app tl combine] in IH; rewrite IH by discriminate.
    reflexivity. }
  replace (pre ++ a :: b :: rest) with ((pre ++ [a]) ++ b :: rest)
    by (rewrite <- app_assoc; reflexivity).
  rewrite (Hsplit (pre ++ [a])) by (destruct pre; discriminate).
  rewrite last_last.
  assert (Happ : forall ps qs, try_path_pairs nodes ps = inr true ->
            try_path_pairs nodes (ps ++ qs) = try_path_pairs nodes qs).
  { induction ps as [| [x y] ps IH]; intros qs Hp; [reflexivity |].
    cbn [try_path_pairs app] in *.
    destruct (cfg_lookup nodes x) as [bb |]; [| discriminate].
    destruct (z_in y (bb_successors bb)); [exact (IH qs Hp) |].
    destruct (cfg_lookup nodes y); [| discriminate].
    destruct (x =? y); [exact (IH qs Hp) | discriminate]. }
  rewrite (Happ _ _ Hok); cbn [try_path_pairs]; reflexivity.
Qed.

Definition try_finally_nodes : list node :=
  match CFG set_pop_first prog_try_finally with Ok st => basic_blocks st | Err _ => [] end.

Lemma try_path_first_failure_witness :
  try_path ([0] ++ [2]) try_finally_nodes = inr true /\
  try_path ([0] ++ 2 :: 6 :: []) try_finally_nodes = inl (KeyError 6).
Proof.
  split; [vm_compute; reflexivity |].
  rewrite (try_path_first_failure try_finally_nodes [0] 2 6 []) by (vm_compute; reflexivity).
  vm_compute; reflexivity.
Defined.

(** ** The shared block stack holds every record a view reaches *)

Definition view_in_pool (pl : blockstack) (n : node) : Prop :=
  match bb_view n with Some v => incl (iter_view v) pl | None => True end.

Lemma pop_until_incl (v : view) (off : Z) : incl (iter_view (pop_until v off)) (iter_view v).
Proof.
  induction v as [| c n p IH]; cbn [pop_until]; [apply incl_refl |].
  destruct (n <=? off); [| apply incl_refl].
  cbn [iter_view]; apply incl_tl, IH.
Qed.

Lemma collect_blocks_in_pool (st : state) (pl : blockstack) (off : Z) (preds : list node)
  (acc res : list blk) :
  Forall (view_in_pool pl) preds -> Forall (fun b => incl (iter_view b) pl) acc ->
  collect_blocks st off preds acc = Ok res -> Forall (fun b => incl (iter_view b) pl) res.
Proof.
  revert acc; induction preds as [| bb rest IH]; intros acc Hp Hacc H;
    cbn [collect_blocks] in H; [injection H as <-; exact Hacc |].
  inversion Hp as [| ? ? Hbb Hrest]; subst.
  destruct (negb (is_reachable st (bb_instruction bb))); [exact (IH acc Hrest Hacc H) |].
  unfold view_in_pool in Hbb; destruct (bb_view bb) as [v |]; [| discriminate H].
  refine (IH _ Hrest _ H); destruct (blk_in (pop_until v off) acc); [exact Hacc |].
  apply Forall_app; split; [exact Hacc |].
  constructor; [| constructor]; exact (incl_tran (pop_until_incl v off) Hbb).
Qed.

Lemma join_blockstack_views_in_pool (pick : list blk -> blk) (Hpick : pick_ok pick)
  (st : state) (nodes : list node) (off : Z) (v : view) :
  Forall (view_in_pool (pool st)) nodes -> join_blockstack_views pick st nodes off = Ok v ->
  incl (iter_view v) (pool st).
Proof.
  intros Hn; unfold join_blockstack_views, bind.
  destruct (collect_blocks st off (predecessors_of nodes off) []) as [blocks |] eqn:Hc;
    [| discriminate].
  assert (Hp : Forall (view_in_pool (pool st)) (predecessors_of nodes off)).
  { rewrite Forall_forall in *; intros x Hx; apply Hn; unfold predecessors_of in Hx;
      apply filter_In in Hx; tauto. }
  pose proof (collect_blocks_in_pool st (pool st) off _ [] blocks Hp (Forall_nil _) Hc) as Hf.
  destruct (Nat.leb (List.length blocks) 1); [| discriminate].
  intros H; injection H as <-; destruct blocks as [| b l]; [intros x [] |].
  rewrite Forall_forall in Hf; apply Hf, Hpick; discriminate.
Qed.

Lemma view_in_pool_grow (pl pl' : blockstack) (nodes : list node) :
  incl pl pl' -> Forall (view_in_pool pl) nodes -> Forall (view_in_pool pl') nodes.
Proof.
  intros Hi; apply Forall_impl; intros n; unfold view_in_pool.
  destruct (bb_view n); [intros H; exact (incl_tran H Hi) | trivial].
Qed.

Lemma build_views_in_pool (pick : list blk -> blk) (Hpick : pick_ok pick) (code : list instr) :
  forall st st', Forall (view_in_pool (pool st)) (basic_blocks st) ->
  build pick st code = Ok st' ->
  Forall (view_in_pool (pool st')) (basic_blocks st') /\ incl (pool st) (pool st').
Proof.
  induction code as [| i rest IH]; intros st st' Hst H; cbn [build] in H;
    [injection H as <-; split; [exact Hst | apply incl_refl] |].
  destruct (negb (is_reachable st i)).
  - destruct (jumps (opname i)); refine (IH _ _ _ H); exact Hst.
  - unfold bind in H.
    assert (H1 : Forall (view_in_pool (pool st))
                   (dict_set (basic_blocks st) (mkNode i None [] empty_meta)))
      by (apply dict_set_Forall; [exact Hst | exact I]).
    destruct (join_blockstack_views pick st _ _) as [v |] eqn:Hj; [| discriminate H].
    pose proof (join_blockstack_views_in_pool pick Hpick st _ _ v H1 Hj) as Hv.
    destruct (compute_jump_targets _ _ _ _) as [r |] eqn:Hr; [| discriminate H].
    destruct (targets r); [| discriminate H].
    assert (Hgrow : incl (pool st) (new_pool r) /\ incl (iter_view (new_view r)) (new_pool r)).
    { destruct (compute_jump_targets_view_pool_cases _ _ _ _ r Hr) as [[Ev Ep] | (_ & Ev & Ep)];
        rewrite Ep; [rewrite Ev; split; [apply incl_refl | exact Hv] |].
      split; [apply incl_appl, incl_refl |].
      rewrite Ev; cbn [iter_view]; rewrite <- Ev; intros x [<- | Hx].
      - apply in_or_app; right; left; reflexivity.
      - apply in_or_app; left; exact (Hv x Hx). }
    destruct Hgrow as [Hg Hnv].
    edestruct IH as [Hf Hi]; [| exact H |].
    + cbn [basic_blocks pool]; apply dict_set_Forall;
        [exact (view_in_pool_grow _ _ _ Hg H1) | exact Hnv].
    + split; [exact Hf | exact (incl_tran Hg Hi)].
Qed.

(** The shared [BlockStack] holds every record that a node's view reaches:
    for any [set.pop] choice, walking the view of any node of a built graph
    from its top record through its parents only meets records that some
    [push] appended to [self._blockstack]. *)
Theorem cfg_views_in_pool (pick : list blk -> blk) (Hpick : pick_ok pick)
  (code : list instr) (st : state) (H : CFG pick code = Ok st) :
  forall n v, In n (basic_blocks st) -> bb_view n = Some v ->
  forall b, In b (iter_view v) -> In b (pool st).
Proof.
  intros n v Hn Hv b Hb.
  destruct (build_views_in_pool pick Hpick code init_state st
              (Forall_cons _ (I : view_in_pool [] (mkNode function_exit None [] empty_meta))
                 (Forall_nil _)) H) as [Hf _].
  rewrite Forall_forall in Hf; specialize (Hf n Hn); unfold view_in_pool in Hf.
  rewrite Hv in Hf; exact (Hf b Hb).
Qed.

Lemma cfg_views_in_pool_witness :
  exists st, CFG set_pop_first prog_try_finally = Ok st /\
  forall n v, In n (basic_blocks st) -> bb_view n = Some v ->
  forall b, In b (iter_view v) -> In b (pool st).
Proof.
  eexists; split; [vm_compute; reflexivity |].
  apply (cfg_views_in_pool set_pop_first set_pop_first_ok prog_try_finally).
  vm_compute; reflexivity.
Defined.
